(** * Capex simulation: the Monte Carlo engine of [Capex Simulation.py]

    A shallow embedding of the numeric core of the Streamlit application
    (population generation, [run_vectorized_simulation], the two risk sweeps
    and the financial derivations of [main_app]) together with the
    properties its specification states.

    Modelling conventions.
    - NumPy integer arrays hold 64-bit signed integers: an array is a
      [list Z] and every arithmetic result is reduced by [wrap64].
    - Python floats are modelled by the rationals they stand for ([Q]); the
      operators are the exact ones, rounding is not modelled.  The one value
      that is not a number, the [nan] NumPy returns for the mean of an empty
      array, is kept ([NaN]).
    - The process-wide generator behind [np.random] is an explicit state,
      threaded through every call; the samplers are the operations of the
      interface [BitGenerator], of which NumPy's Mersenne Twister is one
      implementation and [Lcg] below another.
    - A raised exception is a result ([Raise]) returned together with the
      generator state reached when it was raised.
    - [@st.cache_data] memoises a function on the value of its arguments;
      the definitions describe the decorated bodies, that is, what a call
      computes when the cache holds no entry for its arguments. *)

From Stdlib Require Import String DecimalString.
From Stdlib Require Import ZArith QArith Qround List Sorted Bool Lia Lqa.
Import ListNotations.

Local Open Scope Z_scope.

(** ** 64-bit integers *)

Module Int64.

Definition min_int : Z := - 2 ^ 63.
Definition max_int : Z := 2 ^ 63 - 1.

Definition in_range (z : Z) : Prop := min_int <= z <= max_int.

Definition wrap64 (z : Z) : Z := (z + 2 ^ 63) mod 2 ^ 64 - 2 ^ 63.

Definition add64 (a b : Z) : Z := wrap64 (a + b).
Definition sub64 (a b : Z) : Z := wrap64 (a - b).
Definition mul64 (a b : Z) : Z := wrap64 (a * b).

End Int64.
Export Int64.

(** ** Floats *)

Inductive float64 : Type :=
| Fin (q : Q)
| NaN.

Definition fadd (a b : float64) : float64 :=
  match a, b with
  | Fin x, Fin y => Fin (x + y)
  | _, _ => NaN
  end.

Definition fsub (a b : float64) : float64 :=
  match a, b with
  | Fin x, Fin y => Fin (x - y)
  | _, _ => NaN
  end.

(** [a > b]; false as soon as one side is [nan]. *)
Definition fgt (a b : float64) : bool :=
  match a, b with
  | Fin x, Fin y => negb (Qle_bool x y)
  | _, _ => false
  end.

Definition of_int64 (z : Z) : float64 := Fin (inject_Z z).

(** [int(x)]: truncation toward zero. *)
Definition py_int (x : Q) : Z := Z.quot (Qnum x) (Zpos (Qden x)).

(** [f"{int(rate * 100)}%"] *)
Definition percent_label (rate : Q) : string :=
  (NilZero.string_of_int (Z.to_int (py_int (rate * 100))) ++ "%")%string.

(** ** Exceptions and results *)

Inductive exn : Type :=
| ValueError
| KeyError
| IndexError.

Inductive result (A : Type) : Type :=
| Ok (a : A)
| Raise (e : exn).
Arguments Ok {A} a.
Arguments Raise {A} e.

Definition is_ok {A} (r : result A) : bool :=
  match r with Ok _ => true | Raise _ => false end.

(** ** Dictionaries keyed by a float

    A Python [dict] keeps its keys in insertion order; assigning to a key
    that is already present replaces the value and leaves the key where it
    was first inserted. *)

Module Dict.

Section WithValue.
Context {V : Type}.

Definition t : Type := list (Q * V).

Definition empty : t := [].

Fixpoint set (d : t) (k : Q) (v : V) : t :=
  match d with
  | [] => [(k, v)]
  | (k', v') :: d' =>
      if Qeq_bool k' k then (k', v) :: d' else (k', v') :: set d' k v
  end.

Fixpoint get (d : t) (k : Q) : option V :=
  match d with
  | [] => None
  | (k', v') :: d' => if Qeq_bool k' k then Some v' else get d' k
  end.

Definition items (d : t) : list (Q * V) := d.

Definition keys (d : t) : list Q := map fst d.

End WithValue.
Arguments t : clear implicits.

End Dict.

(** ** The generator behind [np.random]

    [random_binomial p n], [random_poisson lam] and [random_bounded lo hi]
    draw one value and advance the generator.  The laws are the ranges
    NumPy documents for the three distributions, and the fact that a
    binomial trial of probability one always succeeds. *)

Class BitGenerator : Type := {
  rng : Type;
  random_binomial : Q -> Z -> rng -> Z * rng;
  random_poisson : Z -> rng -> Z * rng;
  random_bounded : Z -> Z -> rng -> Z * rng;
  seed_state : Z -> rng;
  random_binomial_range :
    forall p n g, 0 <= n -> (0 <= p <= 1)%Q ->
                  0 <= fst (random_binomial p n g) <= n;
  random_binomial_certain :
    forall p n g, 0 <= n -> (p == 1)%Q -> fst (random_binomial p n g) = n;
  random_poisson_nonneg :
    forall lam g, 0 <= lam -> 0 <= fst (random_poisson lam g);
  random_bounded_range :
    forall lo hi g, lo <= hi -> lo <= fst (random_bounded lo hi g) <= hi
}.

(** ** Computations that draw random numbers and may raise *)

Section Monad.
Context {G : BitGenerator}.

Definition M (A : Type) : Type := rng -> result A * rng.

Definition ret {A} (a : A) : M A := fun g => (Ok a, g).

Definition raise {A} (e : exn) : M A := fun g => (Raise e, g).

(** A step that draws nothing. *)
Definition lift {A} (r : result A) : M A := fun g => (r, g).

Definition bind {A B} (m : M A) (k : A -> M B) : M B :=
  fun g =>
    match m g with
    | (Ok a, g') => k a g'
    | (Raise e, g') => (Raise e, g')
    end.

(** [for x in xs: acc = body x acc] *)
Fixpoint for_each {A S} (xs : list A) (body : A -> S -> M S) (acc : S) : M S :=
  match xs with
  | [] => ret acc
  | x :: xs' => bind (body x acc) (for_each xs' body)
  end.

End Monad.

Notation "x <- m ;; k" := (bind m (fun x => k))
  (at level 61, m at next level, right associativity).

(** ** NumPy reductions *)

Definition np_sum (xs : list Z) : Z := fold_left add64 xs 0.

(** [np.sum(matrix, axis=1)] *)
Definition np_sum_axis1 (matrix : list (list Z)) : list Z := map np_sum matrix.

(** [array * scalar] *)
Definition np_scale (xs : list Z) (c : Z) : list Z := map (fun x => mul64 x c) xs.

Definition Qsum (qs : list Q) : Q := fold_right Qplus 0%Q qs.

Definition np_mean (xs : list Z) : float64 :=
  match xs with
  | [] => NaN
  | _ => Fin (Qsum (map inject_Z xs) / inject_Z (Z.of_nat (length xs)))
  end.

(** The square root of a float, rounded to a float. *)
Class FloatSqrt : Type := {
  np_sqrt : Q -> Q;
  np_sqrt_nonneg : forall x, (0 <= np_sqrt x)%Q
}.

(** [np.std]: the root of the mean squared deviation from the mean. *)
Definition np_std {F : FloatSqrt} (xs : list Z) : float64 :=
  match np_mean xs with
  | NaN => NaN
  | Fin m =>
      let sq := map (fun x => ((inject_Z x - m) * (inject_Z x - m))%Q) xs in
      Fin (np_sqrt (Qsum sq / inject_Z (Z.of_nat (length xs))))
  end.

(** [np.arange(start, stop, step)] for a positive step. *)
Definition np_arange (start stop step : Q) : list Q :=
  map (fun i => (start + inject_Z (Z.of_nat i) * step)%Q)
      (seq 0 (Z.to_nat (Qceiling ((stop - start) / step)))).

(** [range(lo, hi)] *)
Definition py_range (lo hi : Z) : list Z :=
  map (fun i => lo + Z.of_nat i) (seq 0 (Z.to_nat (hi - lo))).

(** ** NumPy samplers over arrays

    Each validates its arguments before the first draw, then fills the
    output array in row-major order, one draw per cell. *)

Section Samplers.
Context {G : BitGenerator}.

Fixpoint draw_each {A} (sample : A -> rng -> Z * rng) (params : list A) (g : rng)
  : list Z * rng :=
  match params with
  | [] => ([], g)
  | a :: params' =>
      let (x, g1) := sample a g in
      let (xs, g2) := draw_each sample params' g1 in
      (x :: xs, g2)
  end.

Fixpoint draw_rows (rows : nat) (p : Q) (n : list Z) (g : rng)
  : list (list Z) * rng :=
  match rows with
  | O => ([], g)
  | S rows' =>
      let (r, g1) := draw_each (random_binomial p) n g in
      let (rs, g2) := draw_rows rows' p n g1 in
      (r :: rs, g2)
  end.

Definition valid_p (p : Q) : bool := Qle_bool 0 p && Qle_bool p 1.

Definition nonneg_all (n : list Z) : bool := forallb (fun a => 0 <=? a) n.

(** [np.random.binomial(n=n, p=p, size=(rows, cols))], [n] an array. *)
Definition np_random_binomial (n : list Z) (p : Q) (size : Z * Z)
  : M (list (list Z)) :=
  let (rows, cols) := size in
  if negb (valid_p p) then raise ValueError
  else if negb (nonneg_all n) then raise ValueError
  else if (rows <? 0) || (cols <? 0) then raise ValueError
  else if negb (cols =? Z.of_nat (length n)) then raise ValueError
  else fun g =>
         let (m, g') := draw_rows (Z.to_nat rows) p n g in (Ok m, g').

(** [np.random.poisson(lam, size)] *)
Definition np_random_poisson (lam : Z) (size : Z) : M (list Z) :=
  if lam <? 0 then raise ValueError
  else if size <? 0 then raise ValueError
  else fun g =>
         let (xs, g') :=
           draw_each random_poisson (repeat lam (Z.to_nat size)) g in
         (Ok xs, g').

(** [np.random.randint(low, high, size)]: integers of [low, high). *)
Definition np_random_randint (low high : Z) (size : Z) : M (list Z) :=
  if high <=? low then raise ValueError
  else if size <? 0 then raise ValueError
  else fun g =>
         let (xs, g') :=
           draw_each (fun lo => random_bounded lo (high - 1))
                     (repeat low (Z.to_nat size)) g in
         (Ok xs, g').

(** ** The simulation engine *)

Definition py_len (xs : list Z) : Z := Z.of_nat (length xs).

Definition simulate_rate (trader_accounts : list Z) (n_simulations : Z)
    (payout_per_successful_account : Z) (rate : Q)
    (results : Dict.t (list Z)) : M (Dict.t (list Z)) :=
  let success_rate := (1 - rate)%Q in
  successful_accounts_matrix <-
    np_random_binomial trader_accounts success_rate
                       (n_simulations, py_len trader_accounts) ;;
  let total_successful_accounts_per_sim :=
    np_sum_axis1 successful_accounts_matrix in
  let payouts_for_rate :=
    np_scale total_successful_accounts_per_sim payout_per_successful_account in
  ret (Dict.set results rate payouts_for_rate).

Definition run_vectorized_simulation (trader_accounts : list Z)
    (n_simulations : Z) (failure_rates : list Q)
    (payout_per_successful_account : Z) : M (Dict.t (list Z)) :=
  for_each failure_rates
    (simulate_rate trader_accounts n_simulations payout_per_successful_account)
    Dict.empty.



(** ** The risk sweeps *)

Record risk_row : Type := {
  axis_value : Z;
  risk_failure_rate : string;
  standard_deviation : float64
}.

Context {F : FloatSqrt}.

Definition risk_rows (axis : Z) (sim_res : Dict.t (list Z)) : list risk_row :=
  map (fun '(rate, payouts) =>
         {| axis_value := axis;
            risk_failure_rate := percent_label rate;
            standard_deviation := np_std payouts |})
      (Dict.items sim_res).

Definition run_risk_analysis (num_traders n_simulations : Z)
    (failure_rates : list Q) (payout_per_successful_account : Z)
  : M (list risk_row) :=
  let avg_accounts_range := py_range 1 21 in
  for_each avg_accounts_range
    (fun avg_acc std_devs_data =>
       trader_accounts_for_run <- np_random_poisson avg_acc num_traders ;;
       sim_res <- run_vectorized_simulation trader_accounts_for_run
                    n_simulations failure_rates payout_per_successful_account ;;
       ret (std_devs_data ++ risk_rows avg_acc sim_res))
    [].

Definition run_randomized_risk_analysis (num_traders n_simulations : Z)
    (failure_rates : list Q) (payout_per_successful_account : Z)
  : M (list risk_row) :=
  for_each (py_range 2 21)
    (fun max_range_val risk_data =>
       trader_accounts_for_run <-
         np_random_randint 1 (max_range_val + 1) num_traders ;;
       sim_res <- run_vectorized_simulation trader_accounts_for_run
                    n_simulations failure_rates payout_per_successful_account ;;
       ret (risk_data ++ risk_rows max_range_val sim_res))
    [].

End Samplers.

(** ** The application: [main_app] *)

Inductive distribution_mode : Type :=
| Simulate_Average (avg_accounts_per_trader : Z)
| Randomized (randomized_account_range : Z * Z).

(** The values read from the sidebar widgets. *)
Record sidebar : Type := {
  mode : distribution_mode;
  num_traders : Z;
  n_simulations : Z;
  cost_per_account : Z;
  payout_per_successful_account : Z;
  additional_revenue : Z
}.

Record scenario_row : Type := {
  failure_rate_scenario : string;
  simulated_payout : Z;
  associated_profit : Z
}.

Record scenario_metrics : Type := {
  scenario_rate : Q;
  mean_payout : float64;
  std_payout : float64;
  estimated_net_profit : float64;
  profit_minus_1_std : float64;
  profit_plus_1_std : float64
}.

(** What the breakeven tab shows: [st.success] with the lowest profitable
    rate, or the [st.warning] that none was found. *)
Inductive breakeven_message : Type :=
| Lowest_profitable (lowest_profitable_rate : Q)
| No_profitable_rate.

Definition scenario_failure_rates : list Q :=
  [90 # 100; 85 # 100; 80 # 100; 75 # 100; 50 # 100]%Q.

Definition failure_rate_range : list Q := np_arange (1 # 100) 1 (1 # 100).

Definition all_scenarios_data (total_revenue : Z)
    (simulation_results : Dict.t (list Z)) : list scenario_row :=
  flat_map
    (fun '(rate, payouts) =>
       map (fun payout_value =>
              {| failure_rate_scenario := percent_label rate;
                 simulated_payout := payout_value;
                 associated_profit := sub64 total_revenue payout_value |})
           payouts)
    (Dict.items simulation_results).

Definition profit_data (total_revenue : Z)
    (breakeven_results : Dict.t (list Z)) : list (Q * float64) :=
  map (fun '(rate, payouts) =>
         (rate, fsub (of_int64 total_revenue) (np_mean payouts)))
      (Dict.items breakeven_results).

(** [DataFrame.sort_values('failure_rate')] *)
Fixpoint insert_by_rate (row : Q * float64) (rows : list (Q * float64))
  : list (Q * float64) :=
  match rows with
  | [] => [row]
  | r :: rows' =>
      if Qle_bool (fst row) (fst r) then row :: r :: rows'
      else r :: insert_by_rate row rows'
  end.

Definition sort_values_failure_rate (rows : list (Q * float64))
  : list (Q * float64) :=
  fold_right insert_by_rate [] rows.

(** [Series.min()] *)
Fixpoint series_min (qs : list Q) : option Q :=
  match qs with
  | [] => None
  | q :: qs' =>
      match series_min qs' with
      | None => Some q
      | Some m => Some (if Qle_bool q m then q else m)
      end
  end.

(** The breakeven tab, lines 239 to 256. *)
Definition breakeven_tab (df_profit : list (Q * float64))
  : result breakeven_message :=
  let df_profitable := filter (fun row => fgt (snd row) (Fin 0)) df_profit in
  match series_min (map fst df_profitable) with
  | Some lowest_profitable_rate =>
      match filter (fun row => Qeq_bool (fst row) lowest_profitable_rate)
                   df_profitable with
      | highest_profit_at_lowest_rate :: _ =>
          Ok (Lowest_profitable lowest_profitable_rate)
      | [] => Raise IndexError
      end
  | None => Ok No_profitable_rate
  end.

Section Application.
Context {G : BitGenerator} {F : FloatSqrt}.

(** Lines 87 to 94. *)
Definition generate_trader_accounts (m : distribution_mode) (num_traders : Z)
  : M (list Z) :=
  match m with
  | Simulate_Average avg_accounts_per_trader =>
      np_random_poisson avg_accounts_per_trader num_traders
  | Randomized randomized_account_range =>
      np_random_randint (fst randomized_account_range)
                        (snd randomized_account_range + 1) num_traders
  end.

Definition compute_total_revenue (total_accounts cost_per_account
                                  additional_revenue : Z) : Z :=
  add64 (mul64 total_accounts cost_per_account) additional_revenue.

(** One pass of the loop of the scenario tab, lines 216 to 229. *)
Definition scenario_metrics_of (total_revenue : Z)
    (simulation_results : Dict.t (list Z)) (rate : Q)
  : result scenario_metrics :=
  match Dict.get simulation_results rate with
  | None => Raise KeyError
  | Some payouts =>
      let mean_payout := np_mean payouts in
      let std_payout := np_std payouts in
      Ok {| scenario_rate := rate;
            mean_payout := mean_payout;
            std_payout := std_payout;
            estimated_net_profit := fsub (of_int64 total_revenue) mean_payout;
            profit_minus_1_std :=
              fsub (of_int64 total_revenue) (fadd mean_payout std_payout);
            profit_plus_1_std :=
              fsub (of_int64 total_revenue) (fsub mean_payout std_payout) |}
  end.

Fixpoint scenario_tab (total_revenue : Z)
    (simulation_results : Dict.t (list Z)) (rates : list Q)
  : result (list scenario_metrics) :=
  match rates with
  | [] => Ok []
  | rate :: rates' =>
      match scenario_metrics_of total_revenue simulation_results rate with
      | Raise e => Raise e
      | Ok m =>
          match scenario_tab total_revenue simulation_results rates' with
          | Raise e => Raise e
          | Ok ms => Ok (m :: ms)
          end
      end
  end.

Record report : Type := {
  trader_accounts : list Z;
  total_accounts : Z;
  total_revenue : Z;
  simulation_results : Dict.t (list Z);
  df_all_scenarios : list scenario_row;
  breakeven_results : Dict.t (list Z);
  df_profit : list (Q * float64);
  df_risk_analysis : list risk_row;
  tab1 : list scenario_metrics;
  tab2 : breakeven_message
}.

Definition main_app (ui : sidebar) : M report :=
  trader_accounts <- generate_trader_accounts (mode ui) (num_traders ui) ;;
  let total_accounts := np_sum trader_accounts in
  let total_revenue :=
    compute_total_revenue total_accounts (cost_per_account ui)
                          (additional_revenue ui) in
  simulation_results <-
    run_vectorized_simulation trader_accounts (n_simulations ui)
      scenario_failure_rates (payout_per_successful_account ui) ;;
  let df_all_scenarios := all_scenarios_data total_revenue simulation_results in
  breakeven_results <-
    run_vectorized_simulation trader_accounts (n_simulations ui)
      failure_rate_range (payout_per_successful_account ui) ;;
  let df_profit :=
    sort_values_failure_rate (profit_data total_revenue breakeven_results) in
  df_risk_analysis <-
    match mode ui with
    | Simulate_Average _ =>
        run_risk_analysis (num_traders ui) (n_simulations ui)
          scenario_failure_rates (payout_per_successful_account ui)
    | Randomized _ =>
        run_randomized_risk_analysis (num_traders ui) (n_simulations ui)
          scenario_failure_rates (payout_per_successful_account ui)
    end ;;
  tab1 <- lift (scenario_tab total_revenue simulation_results
                             scenario_failure_rates) ;;
  tab2 <- lift (breakeven_tab df_profit) ;;
  ret {| trader_accounts := trader_accounts;
         total_accounts := total_accounts;
         total_revenue := total_revenue;
         simulation_results := simulation_results;
         df_all_scenarios := df_all_scenarios;
         breakeven_results := breakeven_results;
         df_profit := df_profit;
         df_risk_analysis := df_risk_analysis;
         tab1 := tab1;
         tab2 := tab2 |}.

End Application.

(** ** The login gate: [check_login], [show_login_form] and the routing

    [st.secrets] is read as far as the form reads it: the table
    [credentials.usernames], whose keys are user names and whose values are
    tables with a [password] and a [name]; a secrets file is assumed to
    exist, any of these tables and keys may be missing, and the values are
    strings.  [str.lower] is a parameter.  The session state holds the three
    keys the form writes; [logged_in] is false while the key is absent. *)

Record user_entry : Type := {
  entry_password : option string;
  entry_name : option string
}.

(** [None]: no [credentials] table; [Some None]: [credentials] without
    [usernames]. *)
Definition secrets : Type := option (option (list (string * user_entry))).

Record session_state : Type := {
  logged_in : bool;
  session_username : option string;
  session_name : option string
}.

(** What the widgets of the form return in one run of the script. *)
Record form_input : Type := {
  typed_username : string;
  typed_password : string;
  submitted : bool
}.

(** How [show_login_form] ends: it returns having shown the form only or
    the error message, or it is left by [st.rerun()] or by a [KeyError]
    on a missing key of the user's table. *)
Inductive form_outcome : Type :=
| Form_shown
| Invalid_username_or_password
| Rerun
| Missing_key.

Fixpoint lookup_user (username : string)
    (usernames : list (string * user_entry)) : option user_entry :=
  match usernames with
  | [] => None
  | (k, entry) :: usernames' =>
      if String.eqb k username then Some entry
      else lookup_user username usernames'
  end.

Section Login.
Variable lower : string -> string.

Definition show_login_form (sec : secrets) (inp : form_input)
    (st : session_state) : form_outcome * session_state :=
  let username := lower (typed_username inp) in
  let password := typed_password inp in
  if submitted inp then
    match sec with
    | Some (Some usernames) =>
        match lookup_user username usernames with
        | Some entry =>
            match entry_password entry with
            | None => (Missing_key, st)
            | Some stored =>
                if String.eqb password stored then
                  match entry_name entry with
                  | Some name =>
                      (Rerun,
                       {| logged_in := true;
                          session_username := Some username;
                          session_name := Some name |})
                  | None =>
                      (Missing_key,
                       {| logged_in := true;
                          session_username := Some username;
                          session_name := session_name st |})
                  end
                else (Invalid_username_or_password, st)
            end
        | None => (Invalid_username_or_password, st)
        end
    | _ => (Invalid_username_or_password, st)
    end
  else (Form_shown, st).

(** [check_login]: [inl b] when it returns [b], [inr o] when the form it
    showed was left by [o] and nothing is returned. *)
Definition check_login (sec : secrets) (inp : form_input) (st : session_state)
  : (bool + form_outcome) * session_state :=
  if negb (logged_in st) then
    match show_login_form sec inp st with
    | (Form_shown, st') => (inl false, st')
    | (Invalid_username_or_password, st') => (inl false, st')
    | (o, st') => (inr o, st')
    end
  else (inl true, st).

(** One run of the script, lines 287 and 288: the application's result
    when [main_app] ran. *)
Definition script {G : BitGenerator} {F : FloatSqrt} (sec : secrets)
    (inp : form_input) (ui : sidebar) (st : session_state) (g : rng)
  : option (result report) * session_state * rng :=
  match check_login sec inp st with
  | (inl true, st') => let (r, g') := main_app ui g in (Some r, st', g')
  | (_, st') => (None, st', g)
  end.

(** The session after a sequence of runs, one form input per run. *)
Fixpoint session_after (sec : secrets) (inputs : list form_input)
    (st : session_state) : session_state :=
  match inputs with
  | [] => st
  | inp :: inputs' =>
      session_after sec inputs' (snd (check_login sec inp st))
  end.

End Login.

(** [str.lower] on ASCII text. *)
Definition lower_ascii (c : Ascii.ascii) : Ascii.ascii :=
  let n := Ascii.nat_of_ascii c in
  if (65 <=? n)%nat && (n <=? 90)%nat then Ascii.ascii_of_nat (n + 32) else c.

Fixpoint str_lower (s : string) : string :=
  match s with
  | EmptyString => EmptyString
  | String c s' => String (lower_ascii c) (str_lower s')
  end.

(** ** A reference generator

    A linear congruential generator.  A binomial draw runs its [n] trials,
    each a success when the next uniform value of [0, 1) falls below [p]. *)

Module Lcg.

Definition modulus : Z := 2 ^ 31.

Definition next (g : Z) : Z := (g * 1103515245 + 12345) mod modulus.

Definition uniform (g : Z) : Q := Qmake (g mod modulus) (Z.to_pos modulus).

Fixpoint trials (n : nat) (p : Q) (g : Z) : Z * Z :=
  match n with
  | O => (0, g)
  | S n' =>
      let g1 := next g in
      let (k, g2) := trials n' p g1 in
      ((if Qle_bool p (uniform g1) then 0 else 1) + k, g2)
  end.

Definition binomial (p : Q) (n : Z) (g : Z) : Z * Z := trials (Z.to_nat n) p g.

Definition poisson (lam : Z) (g : Z) : Z * Z :=
  let g1 := next g in (g1 mod (2 * Z.abs lam + 1), g1).

Definition bounded (lo hi : Z) (g : Z) : Z * Z :=
  let g1 := next g in (lo + g1 mod (Z.max 1 (hi - lo + 1)), g1).

(** A rational square root: the integer root of the argument scaled by
    [10 ^ 12], scaled back. *)
Definition sqrt (x : Q) : Q :=
  Qmake (Z.sqrt (Qfloor (x * inject_Z (10 ^ 12)))) (Z.to_pos (10 ^ 6)).

End Lcg.

(** ** Vocabulary of the statements *)

Definition Zsum (xs : list Z) : Z := fold_right Z.add 0 xs.

(** [k] is, as a number, one of [ks]. *)
Definition mem (k : Q) (ks : list Q) : bool :=
  existsb (fun k' => Qeq_bool k' k) ks.

(** The rates of a list without their repetitions, each where it first
    occurs. *)
Fixpoint distinct (rates : list Q) : list Q :=
  match rates with
  | [] => []
  | k :: rates' => k :: filter (fun x => negb (Qeq_bool k x)) (distinct rates')
  end.

(** No rate of the list occurs twice. *)
Fixpoint no_repetition (rates : list Q) : bool :=
  match rates with
  | [] => true
  | k :: rates' => negb (mem k rates') && no_repetition rates'
  end.

(** The value paired with the last entry of [l] whose key is [r]. *)
Fixpoint last_assoc {V} (r : Q) (l : list (Q * V)) : option V :=
  match l with
  | [] => None
  | (k, v) :: l' =>
      match last_assoc r l' with
      | Some v' => Some v'
      | None => if Qeq_bool k r then Some v else None
      end
  end.

(** Assigning the entries of [l] to [d], first to last. *)
Definition set_all {V} (l : list (Q * V)) (d : Dict.t V) : Dict.t V :=
  fold_left (fun d kv => Dict.set d (fst kv) (snd kv)) l d.

(** The failure rates the sampler accepts: [1 - rate] is a probability. *)
Definition valid_rate (rate : Q) : bool := valid_p (1 - rate).

(** The arguments on which the engine raises nothing. *)
Definition engine_accepts (trader_accounts : list Z) (n_simulations : Z)
    (failure_rates : list Q) : bool :=
  match failure_rates with
  | [] => true
  | _ => forallb valid_rate failure_rates
         && nonneg_all trader_accounts && (0 <=? n_simulations)
  end.

(** The rates the loop gets through before the first one the sampler
    refuses. *)
Fixpoint accepted_prefix (failure_rates : list Q) : list Q :=
  match failure_rates with
  | [] => []
  | rate :: rates' =>
      if valid_rate rate then rate :: accepted_prefix rates' else []
  end.


Section Trace.
Context {G : BitGenerator}.

(** The batch the loop body computes for [rate] when entered at [g], and
    the generator it leaves. *)
Definition batch_at (trader_accounts : list Z) (n_simulations payout : Z)
    (rate : Q) (g : rng) : list Z :=
  np_scale
    (np_sum_axis1
       (fst (draw_rows (Z.to_nat n_simulations) (1 - rate) trader_accounts g)))
    payout.

Definition state_after (trader_accounts : list Z) (n_simulations : Z)
    (rate : Q) (g : rng) : rng :=
  snd (draw_rows (Z.to_nat n_simulations) (1 - rate) trader_accounts g).

(** The batches in the order the loop draws them, one per entry of the
    rate list, and the generator after the last. *)
Fixpoint drawn_batches (trader_accounts : list Z) (n_simulations payout : Z)
    (rates : list Q) (g : rng) : list (Q * list Z) :=
  match rates with
  | [] => []
  | rate :: rates' =>
      (rate, batch_at trader_accounts n_simulations payout rate g)
        :: drawn_batches trader_accounts n_simulations payout rates'
             (state_after trader_accounts n_simulations rate g)
  end.

Fixpoint state_after_rates (trader_accounts : list Z) (n_simulations : Z)
    (rates : list Q) (g : rng) : rng :=
  match rates with
  | [] => g
  | rate :: rates' =>
      state_after_rates trader_accounts n_simulations rates'
        (state_after trader_accounts n_simulations rate g)
  end.

(** One point of a sensitivity sweep: the axis value, the population drawn
    for it and the engine's result on that population. *)
Record sweep_point : Type := {
  point_axis : Z;
  point_population : list Z;
  point_results : Dict.t (list Z)
}.

(** [sweep_chain generate n rates payout axes g points g']: starting from
    the generator [g], each axis value in turn draws a population of its
    own with [generate] and runs the engine on it, the generator passing
    from one point to the next and ending at [g']. *)
Inductive sweep_chain (generate : Z -> M (list Z)) (n_simulations : Z)
    (rates : list Q) (payout : Z)
  : list Z -> rng -> list sweep_point -> rng -> Prop :=
| sweep_done g : sweep_chain generate n_simulations rates payout [] g [] g
| sweep_step a axes g pop g1 sim g2 points g3 :
    generate a g = (Ok pop, g1) ->
    run_vectorized_simulation pop n_simulations rates payout g1 = (Ok sim, g2) ->
    sweep_chain generate n_simulations rates payout axes g2 points g3 ->
    sweep_chain generate n_simulations rates payout (a :: axes) g
      ({| point_axis := a; point_population := pop; point_results := sim |}
         :: points) g3.

End Trace.

Section SweepRows.
Context {G : BitGenerator} {F : FloatSqrt}.

(** The rows a sweep records for one point. *)
Definition rows_of_point (pt : sweep_point) : list risk_row :=
  risk_rows (point_axis pt) (point_results pt).

(** The loop the two sweeps share, over any axis and population sampler. *)
Definition sweep_loop (generate : Z -> M (list Z)) (n : Z) (rates : list Q)
    (payout : Z) (axes : list Z) : list risk_row -> M (list risk_row) :=
  for_each axes
    (fun a acc =>
       trader_accounts_for_run <- generate a ;;
       sim_res <- run_vectorized_simulation trader_accounts_for_run n rates
                    payout ;;
       ret (acc ++ risk_rows a sim_res)).

End SweepRows.

(** A run in randomized mode: three traders with 5 to 15 accounts, two
    replicates per scenario. *)
Definition sample_sidebar : sidebar :=
  {| mode := Randomized (5, 15);
     num_traders := 3;
     n_simulations := 2;
     cost_per_account := 200;
     payout_per_successful_account := 1000;
     additional_revenue := 2000 |}.

(** The sidebar values on which no sampler of [main_app] raises.  The
    widgets allow less: 100 to 1,000,000 traders, 100 to 5,000 simulations,
    an average of 1 to 20 and a range within 1 to 20. *)
Definition sidebar_accepted (ui : sidebar) : Prop :=
  0 <= num_traders ui /\ 0 <= n_simulations ui /\
  match mode ui with
  | Simulate_Average avg_accounts_per_trader => 0 <= avg_accounts_per_trader
  | Randomized randomized_account_range =>
      0 <= fst randomized_account_range <= snd randomized_account_range
  end.


(** The mode parameters NumPy can take: an average below the largest mean
    its Poisson sampler accepts, range ends that are 64-bit integers with
    room for the exclusive upper end. *)
Definition mode_representable (m : distribution_mode) : Prop :=
  match m with
  | Simulate_Average avg_accounts_per_trader =>
      avg_accounts_per_trader <= 2 ^ 62
  | Randomized randomized_account_range =>
      min_int <= fst randomized_account_range <= max_int /\
      min_int <= snd randomized_account_range < max_int
  end.

(** * Properties *)

Module LcgFacts.
Import Lcg.

Lemma trials_range (n : nat) (p : Q) (g : Z) :
  0 <= fst (trials n p g) <= Z.of_nat n.
Proof.
  revert g; induction n as [|n IH]; intros g.
  - simpl; lia.
  - cbn [trials]. specialize (IH (next g)).
    destruct (trials n p (next g)) as [k g2]; cbn [fst] in *.
    destruct (Qle_bool p (uniform (next g))); lia.
Qed.

Lemma uniform_below_one (g : Z) : (uniform g < 1)%Q.
Proof.
  unfold uniform, Qlt; cbn [Qnum Qden].
  rewrite Z2Pos.id by reflexivity.
  pose proof (Z.mod_pos_bound g modulus eq_refl) as B. lia.
Qed.

Lemma trials_certain (n : nat) (p : Q) (g : Z) :
  (p == 1)%Q -> fst (trials n p g) = Z.of_nat n.
Proof.
  intros Hp; revert g; induction n as [|n IH]; intros g.
  - reflexivity.
  - cbn [trials]. specialize (IH (next g)).
    destruct (trials n p (next g)) as [k g2]; cbn [fst] in *.
    destruct (Qle_bool p (uniform (next g))) eqn:E.
    + apply Qle_bool_iff in E. rewrite Hp in E.
      pose proof (uniform_below_one (next g)) as U.
      exfalso; apply (Qlt_not_le _ _ U E).
    + lia.
Qed.

Lemma binomial_range (p : Q) (n g : Z) :
  0 <= n -> (0 <= p <= 1)%Q -> 0 <= fst (binomial p n g) <= n.
Proof.
  intros Hn _. unfold binomial.
  pose proof (trials_range (Z.to_nat n) p g). lia.
Qed.

Lemma binomial_certain (p : Q) (n g : Z) :
  0 <= n -> (p == 1)%Q -> fst (binomial p n g) = n.
Proof.
  intros Hn Hp. unfold binomial. rewrite trials_certain by exact Hp. lia.
Qed.

Lemma poisson_nonneg (lam g : Z) : 0 <= lam -> 0 <= fst (poisson lam g).
Proof.
  intros _. unfold poisson; cbn [fst].
  apply Z.mod_pos_bound. lia.
Qed.

Lemma bounded_range (lo hi g : Z) :
  lo <= hi -> lo <= fst (bounded lo hi g) <= hi.
Proof.
  intros H. unfold bounded; cbn [fst].
  assert (P : 0 < Z.max 1 (hi - lo + 1)) by lia.
  pose proof (Z.mod_pos_bound (next g) _ P). lia.
Qed.

Lemma sqrt_nonneg (x : Q) : (0 <= sqrt x)%Q.
Proof.
  unfold sqrt, Qle; cbn [Qnum Qden].
  rewrite Z.mul_0_l, Z.mul_1_r. apply Z.sqrt_nonneg.
Qed.

End LcgFacts.

#[export] Instance lcg_generator : BitGenerator := {|
  rng := Z;
  random_binomial := Lcg.binomial;
  random_poisson := Lcg.poisson;
  random_bounded := Lcg.bounded;
  seed_state := fun seed => seed mod Lcg.modulus;
  random_binomial_range := LcgFacts.binomial_range;
  random_binomial_certain := LcgFacts.binomial_certain;
  random_poisson_nonneg := LcgFacts.poisson_nonneg;
  random_bounded_range := LcgFacts.bounded_range
|}.

#[export] Instance lcg_sqrt : FloatSqrt := {|
  np_sqrt := Lcg.sqrt;
  np_sqrt_nonneg := LcgFacts.sqrt_nonneg
|}.

(** ** 64-bit arithmetic *)

Lemma wrap64_in_range (z : Z) : in_range z -> wrap64 z = z.
Proof.
  unfold in_range, min_int, max_int, wrap64. intros H.
  rewrite Z.mod_small; lia.
Qed.

Lemma wrap64_range (z : Z) : in_range (wrap64 z).
Proof.
  unfold in_range, min_int, max_int, wrap64.
  pose proof (Z.mod_pos_bound (z + 2 ^ 63) (2 ^ 64) eq_refl). lia.
Qed.

Lemma wrap64_congr (a b : Z) :
  a mod 2 ^ 64 = b mod 2 ^ 64 -> wrap64 a = wrap64 b.
Proof.
  unfold wrap64. intros H.
  rewrite (Z.add_mod a), (Z.add_mod b), H by discriminate. reflexivity.
Qed.

Lemma wrap64_mod (a : Z) : wrap64 a mod 2 ^ 64 = a mod 2 ^ 64.
Proof.
  unfold wrap64.
  rewrite Zminus_mod, Zmod_mod, <- Zminus_mod.
  f_equal. lia.
Qed.

Lemma wrap64_add_l (a b : Z) : wrap64 (wrap64 a + b) = wrap64 (a + b).
Proof.
  apply wrap64_congr.
  rewrite Z.add_mod, wrap64_mod, <- Z.add_mod by discriminate. reflexivity.
Qed.

Lemma wrap64_mul_l (a b : Z) : wrap64 (wrap64 a * b) = wrap64 (a * b).
Proof.
  apply wrap64_congr.
  rewrite Z.mul_mod, wrap64_mod, <- Z.mul_mod by discriminate. reflexivity.
Qed.

Lemma fold_add64 (xs : list Z) (a : Z) :
  fold_left add64 xs (wrap64 a) = wrap64 (a + Zsum xs).
Proof.
  revert a; induction xs as [|x xs IH]; intros a.
  - cbn. f_equal; lia.
  - change (Zsum (x :: xs)) with (x + Zsum xs). cbn [fold_left].
    unfold add64 at 2. rewrite wrap64_add_l, IH. f_equal; lia.
Qed.

Lemma np_sum_wrap (xs : list Z) : np_sum xs = wrap64 (Zsum xs).
Proof.
  unfold np_sum. change 0 with (wrap64 0) at 1. now rewrite fold_add64.
Qed.

Lemma mul64_np_sum (xs : list Z) (c : Z) :
  mul64 (np_sum xs) c = wrap64 (Zsum xs * c).
Proof. unfold mul64. now rewrite np_sum_wrap, wrap64_mul_l. Qed.

(** ** Dictionaries *)

Module DictFacts.

Lemma Qeq_bool_sym (a b : Q) : Qeq_bool a b = Qeq_bool b a.
Proof.
  destruct (Qeq_bool a b) eqn:E, (Qeq_bool b a) eqn:E'; try reflexivity.
  - apply Qeq_bool_iff in E. symmetry in E. apply Qeq_bool_iff in E. congruence.
  - apply Qeq_bool_iff in E'. symmetry in E'. apply Qeq_bool_iff in E'. congruence.
Qed.

Lemma Qeq_bool_congr (a b c : Q) :
  Qeq_bool a b = true -> Qeq_bool a c = Qeq_bool b c.
Proof.
  intros H. apply Qeq_bool_iff in H.
  destruct (Qeq_bool a c) eqn:E, (Qeq_bool b c) eqn:E'; try reflexivity.
  - apply Qeq_bool_iff in E. rewrite H in E. apply Qeq_bool_iff in E. congruence.
  - apply Qeq_bool_iff in E'. rewrite <- H in E'. apply Qeq_bool_iff in E'.
    congruence.
Qed.

Lemma Qeq_bool_refl (a : Q) : Qeq_bool a a = true.
Proof. apply Qeq_bool_iff. reflexivity. Qed.

Section WithValue.
Context {V : Type}.
Implicit Types (d : Dict.t V) (k r : Q) (v : V) (l : list (Q * V)).

Lemma get_set d k v r :
  Dict.get (Dict.set d k v) r =
  if Qeq_bool k r then Some v else Dict.get d r.
Proof.
  induction d as [|[k0 v0] d IH]; cbn [Dict.set Dict.get].
  - reflexivity.
  - destruct (Qeq_bool k0 k) eqn:E; cbn [Dict.get].
    + rewrite (Qeq_bool_congr _ _ r E).
      now destruct (Qeq_bool k r).
    + rewrite IH. destruct (Qeq_bool k0 r) eqn:E0; [|reflexivity].
      destruct (Qeq_bool k r) eqn:E1; [|reflexivity].
      rewrite (Qeq_bool_congr _ _ k E0), Qeq_bool_sym in E. congruence.
Qed.

Lemma set_all_cons k v l d :
  set_all ((k, v) :: l) d = set_all l (Dict.set d k v).
Proof. reflexivity. Qed.

Lemma get_set_all l d r :
  Dict.get (set_all l d) r =
  match last_assoc r l with
  | Some v => Some v
  | None => Dict.get d r
  end.
Proof.
  revert d; induction l as [|[k v] l IH]; intros d.
  - reflexivity.
  - rewrite set_all_cons, IH. cbn [last_assoc].
    destruct (last_assoc r l); [reflexivity|].
    rewrite get_set. now destruct (Qeq_bool k r).
Qed.

Lemma mem_app k ks ks' : mem k (ks ++ ks') = mem k ks || mem k ks'.
Proof. unfold mem. apply existsb_app. Qed.

Lemma mem_congr k k' ks : Qeq_bool k k' = true -> mem k ks = mem k' ks.
Proof.
  intros H. unfold mem. induction ks as [|x ks IH]; cbn; [reflexivity|].
  rewrite IH. f_equal.
  rewrite (Qeq_bool_sym x k), (Qeq_bool_sym x k'). now apply Qeq_bool_congr.
Qed.

Lemma keys_set d k v :
  Dict.keys (Dict.set d k v) =
  if mem k (Dict.keys d) then Dict.keys d else Dict.keys d ++ [k].
Proof.
  unfold Dict.keys, mem.
  induction d as [|[k0 v0] d IH]; cbn [Dict.set map existsb fst app].
  - reflexivity.
  - destruct (Qeq_bool k0 k) eqn:E; cbn [map fst orb].
    + reflexivity.
    + rewrite IH. now destruct (existsb _ _).
Qed.

Lemma length_set d k v :
  length (Dict.set d k v) =
  if mem k (Dict.keys d) then length d else S (length d).
Proof.
  pose proof (f_equal (@length Q) (keys_set d k v)) as H.
  unfold Dict.keys in H at 1. rewrite length_map in H. rewrite H.
  destruct (mem k (Dict.keys d)); unfold Dict.keys.
  - now rewrite length_map.
  - rewrite length_app, length_map. cbn. lia.
Qed.

Lemma filter_filter {A} (f h : A -> bool) (xs : list A) :
  filter f (filter h xs) = filter (fun x => h x && f x) xs.
Proof.
  induction xs as [|x xs IH]; cbn; [reflexivity|].
  destruct (h x); cbn; [destruct (f x)|]; now rewrite IH.
Qed.

Lemma keys_set_all l d :
  Dict.keys (set_all l d) =
  Dict.keys d
    ++ filter (fun x => negb (mem x (Dict.keys d))) (distinct (map fst l)).
Proof.
  revert d; induction l as [|[k v] l IH]; intros d.
  - cbn. now rewrite app_nil_r.
  - rewrite set_all_cons, IH, keys_set.
    cbn [map distinct fst filter]. rewrite filter_filter.
    destruct (mem k (Dict.keys d)) eqn:E; cbn [negb].
    + f_equal. apply filter_ext_in. intros x _.
      destruct (Qeq_bool k x) eqn:Ex; cbn [negb andb]; [|reflexivity].
      now rewrite <- (mem_congr _ _ _ Ex), E.
    + rewrite <- app_assoc. cbn [app]. do 2 f_equal.
      apply filter_ext. intros x. rewrite mem_app. cbn.
      rewrite orb_false_r, negb_orb. apply andb_comm.
Qed.

End WithValue.

(** *** Rates without repetition *)

Lemma length_filter_le {A} (f : A -> bool) (xs : list A) :
  (length (filter f xs) <= length xs)%nat.
Proof.
  induction xs as [|x xs IH]; cbn; [lia|]. destruct (f x); cbn; lia.
Qed.

Lemma length_distinct (rates : list Q) :
  (length (distinct rates) <= length rates)%nat.
Proof.
  induction rates as [|k rates IH]; cbn; [lia|].
  pose proof (length_filter_le (fun x => negb (Qeq_bool k x)) (distinct rates)).
  lia.
Qed.

Lemma mem_filter (k : Q) (f : Q -> bool) (ks : list Q) :
  mem k (filter f ks) = true -> mem k ks = true.
Proof.
  unfold mem. induction ks as [|x ks IH]; cbn; [easy|].
  destruct (f x); cbn; intros H.
  - apply orb_true_iff in H. apply orb_true_iff. tauto.
  - apply orb_true_iff. right. now apply IH.
Qed.

Lemma mem_distinct (k : Q) (rates : list Q) :
  mem k (distinct rates) = mem k rates.
Proof.
  induction rates as [|x rates IH]; [reflexivity|].
  cbn [distinct]. unfold mem in *. cbn [existsb].
  destruct (Qeq_bool x k) eqn:E; cbn [orb]; [reflexivity|].
  rewrite <- IH. clear IH.
  induction (distinct rates) as [|y ys IHy]; cbn; [reflexivity|].
  destruct (Qeq_bool x y) eqn:Exy; cbn [negb existsb].
  - rewrite IHy. rewrite <- (Qeq_bool_congr _ _ k Exy), E. reflexivity.
  - now rewrite IHy.
Qed.


(** A list that repeats a rate has fewer distinct rates than entries. *)
Lemma length_distinct_lt (pre mid post : list Q) (r r' : Q) :
  Qeq_bool r r' = true ->
  (length (distinct (pre ++ r :: mid ++ r' :: post))
   < length (pre ++ r :: mid ++ r' :: post))%nat.
Proof.
  intros E. induction pre as [|x pre IH]; cbn [app distinct length].
  - apply le_n_S.
    assert (M : mem r (distinct (mid ++ r' :: post)) = true).
    { rewrite mem_distinct, mem_app. cbn.
      rewrite Qeq_bool_sym, E. now rewrite orb_true_r. }
    pose proof (length_distinct (mid ++ r' :: post)) as L.
    revert M L. generalize (length (mid ++ r' :: post)).
    induction (distinct (mid ++ r' :: post)) as [|y ys IHy]; intros n M L.
    + discriminate.
    + cbn in *. destruct (Qeq_bool r y) eqn:Ey; cbn.
      * pose proof (length_filter_le (fun x => negb (Qeq_bool r x)) ys). lia.
      * rewrite Qeq_bool_sym, Ey in M. cbn in M.
        destruct n as [|n]; [lia|].
        specialize (IHy n M ltac:(lia)). lia.
  - pose proof (length_filter_le (fun y => negb (Qeq_bool x y))
                  (distinct (pre ++ r :: mid ++ r' :: post))). lia.
Qed.

End DictFacts.

(** ** The samplers and the engine *)

Section EngineFacts.
Context {G : BitGenerator}.
Import DictFacts.

Lemma valid_p_iff (p : Q) : valid_p p = true <-> (0 <= p <= 1)%Q.
Proof.
  unfold valid_p. rewrite andb_true_iff, !Qle_bool_iff. tauto.
Qed.

Lemma nonneg_all_iff (n : list Z) :
  nonneg_all n = true <-> Forall (fun a => 0 <= a) n.
Proof.
  unfold nonneg_all. rewrite forallb_forall, Forall_forall.
  split; intros H a Ha; specialize (H a Ha); lia.
Qed.

Lemma draw_each_length {A} (sample : A -> rng -> Z * rng) params g :
  length (fst (draw_each sample params g)) = length params.
Proof.
  revert g; induction params as [|a params IH]; intros g; cbn [draw_each].
  - reflexivity.
  - destruct (sample a g) as [x g1]. specialize (IH g1).
    destruct (draw_each sample params g1) as [xs g2]. cbn in *. now rewrite IH.
Qed.

Lemma draw_each_Forall2 {A} (sample : A -> rng -> Z * rng)
    (R : A -> Z -> Prop) params g :
  Forall (fun a => forall g', R a (fst (sample a g'))) params ->
  Forall2 R params (fst (draw_each sample params g)).
Proof.
  intros H; revert g; induction H as [|a params Ha _ IH]; intros g;
    cbn [draw_each].
  - constructor.
  - specialize (Ha g). destruct (sample a g) as [x g1]. specialize (IH g1).
    destruct (draw_each sample params g1) as [xs g2]. cbn in *.
    now constructor.
Qed.

Lemma draw_each_binomial_range p n g :
  valid_p p = true -> nonneg_all n = true ->
  Forall2 (fun a x => 0 <= x <= a) n (fst (draw_each (random_binomial p) n g)).
Proof.
  intros Hp Hn. apply draw_each_Forall2.
  apply nonneg_all_iff in Hn. apply valid_p_iff in Hp.
  eapply Forall_impl; [|exact Hn]. cbn. intros a Ha g'.
  now apply random_binomial_range.
Qed.

Lemma draw_each_binomial_certain p n g :
  (p == 1)%Q -> nonneg_all n = true ->
  fst (draw_each (random_binomial p) n g) = n.
Proof.
  intros Hp Hn. apply nonneg_all_iff in Hn.
  assert (F : Forall2 eq n (fst (draw_each (random_binomial p) n g))).
  { apply draw_each_Forall2. eapply Forall_impl; [|exact Hn]. cbn.
    intros a Ha g'. symmetry. now apply random_binomial_certain. }
  revert F. generalize (fst (draw_each (random_binomial p) n g)).
  clear. intros l F. induction F as [|a x n l E _ IH]; [reflexivity|].
  now rewrite E, IH.
Qed.

Lemma draw_rows_length rows p n g :
  length (fst (draw_rows rows p n g)) = rows.
Proof.
  revert g; induction rows as [|rows IH]; intros g; cbn [draw_rows].
  - reflexivity.
  - destruct (draw_each (random_binomial p) n g) as [r g1]. specialize (IH g1).
    destruct (draw_rows rows p n g1) as [rs g2]. cbn in *. now rewrite IH.
Qed.

(** Every row of the matrix is one pass of binomial draws over the
    population, taken at some state of the generator. *)
Lemma draw_rows_rows rows p n g :
  Forall (fun row => exists g', row = fst (draw_each (random_binomial p) n g'))
         (fst (draw_rows rows p n g)).
Proof.
  revert g; induction rows as [|rows IH]; intros g; cbn [draw_rows].
  - constructor.
  - destruct (draw_each (random_binomial p) n g) as [r g1] eqn:E.
    specialize (IH g1). destruct (draw_rows rows p n g1) as [rs g2]. cbn in *.
    constructor; [|exact IH]. exists g. now rewrite E.
Qed.

Lemma np_random_binomial_eq n p rows g :
  np_random_binomial n p (rows, py_len n) g =
  if valid_p p && nonneg_all n && (0 <=? rows)
  then (Ok (fst (draw_rows (Z.to_nat rows) p n g)),
        snd (draw_rows (Z.to_nat rows) p n g))
  else (Raise ValueError, g).
Proof.
  unfold np_random_binomial, raise.
  destruct (valid_p p); cbn [negb andb]; [|reflexivity].
  destruct (nonneg_all n); cbn [negb andb]; [|reflexivity].
  assert (L : (py_len n <? 0) = false) by (apply Z.ltb_ge; unfold py_len; lia).
  rewrite L, orb_false_r.
  destruct (rows <? 0) eqn:E.
  - apply Z.ltb_lt in E.
    assert (E' : (0 <=? rows) = false) by (apply Z.leb_gt; lia). now rewrite E'.
  - apply Z.ltb_ge in E.
    assert (E' : (0 <=? rows) = true) by (apply Z.leb_le; lia). rewrite E'.
    rewrite Z.eqb_refl. cbn [negb].
    now destruct (draw_rows (Z.to_nat rows) p n g).
Qed.

Lemma simulate_rate_eq pop n payout rate d g :
  simulate_rate pop n payout rate d g =
  if valid_rate rate && nonneg_all pop && (0 <=? n)
  then (Ok (Dict.set d rate (batch_at pop n payout rate g)),
        state_after pop n rate g)
  else (Raise ValueError, g).
Proof.
  unfold simulate_rate, bind. rewrite np_random_binomial_eq.
  fold (valid_rate rate).
  now destruct (valid_rate rate && nonneg_all pop && (0 <=? n)).
Qed.

Lemma for_each_simulate_ok pop n payout rates d g :
  forallb valid_rate rates = true -> nonneg_all pop = true -> 0 <= n ->
  for_each rates (simulate_rate pop n payout) d g =
  (Ok (set_all (drawn_batches pop n payout rates g) d),
   state_after_rates pop n rates g).
Proof.
  intros Hr Hp Hn. revert d g.
  induction rates as [|r rates IH]; intros d g.
  - reflexivity.
  - cbn [forallb] in Hr. apply andb_true_iff in Hr as [Hr1 Hr2].
    cbn [for_each]. unfold bind at 1. rewrite simulate_rate_eq, Hr1, Hp.
    assert (E : (0 <=? n) = true) by (apply Z.leb_le; lia).
    rewrite E. cbn [andb].
    now rewrite (IH Hr2).
Qed.

(** The engine as a fold over the batches it draws. *)
Lemma run_vectorized_simulation_ok pop n rates payout g :
  forallb valid_rate rates = true -> nonneg_all pop = true -> 0 <= n ->
  run_vectorized_simulation pop n rates payout g =
  (Ok (set_all (drawn_batches pop n payout rates g) Dict.empty),
   state_after_rates pop n rates g).
Proof. apply for_each_simulate_ok. Qed.

Lemma for_each_simulate_raise pop n payout pre bad post d g :
  forallb valid_rate pre = true -> valid_rate bad = false ->
  nonneg_all pop = true -> 0 <= n ->
  for_each (pre ++ bad :: post) (simulate_rate pop n payout) d g =
  (Raise ValueError, state_after_rates pop n pre g).
Proof.
  intros Hpre Hb Hp Hn.
  assert (E : (0 <=? n) = true) by (apply Z.leb_le; lia).
  revert d g. induction pre as [|r pre IH]; intros d g; cbn [app for_each].
  - unfold bind. now rewrite simulate_rate_eq, Hb.
  - cbn [forallb] in Hpre. apply andb_true_iff in Hpre as [H1 H2].
    unfold bind at 1. rewrite simulate_rate_eq, H1, Hp, E. cbn [andb].
    now rewrite (IH H2).
Qed.

Lemma for_each_simulate_reject pop n payout r rates d g :
  nonneg_all pop && (0 <=? n) = false ->
  for_each (r :: rates) (simulate_rate pop n payout) d g = (Raise ValueError, g).
Proof.
  intros E. cbn [for_each]. unfold bind at 1.
  now rewrite simulate_rate_eq, <- andb_assoc, E, andb_false_r.
Qed.

(** A rate list splits at its first entry the sampler refuses. *)
Lemma first_invalid_rate rates :
  forallb valid_rate rates = false ->
  exists pre bad post,
    rates = pre ++ bad :: post /\ forallb valid_rate pre = true /\
    valid_rate bad = false.
Proof.
  induction rates as [|r rates IH]; cbn [forallb]; [discriminate|].
  destruct (valid_rate r) eqn:E; cbn [andb]; intros H.
  - destruct (IH H) as (pre & bad & post & -> & Hpre & Hbad).
    exists (r :: pre), bad, post. cbn [forallb]. now rewrite E, Hpre.
  - now exists [], r, rates.
Qed.

Lemma draw_rows_certain rows p n g :
  (p == 1)%Q -> nonneg_all n = true ->
  fst (draw_rows rows p n g) = repeat n rows.
Proof.
  intros Hp Hn. revert g; induction rows as [|rows IH]; intros g;
    cbn [draw_rows repeat].
  - reflexivity.
  - pose proof (draw_each_binomial_certain p n g Hp Hn) as E.
    destruct (draw_each (random_binomial p) n g) as [r g1]. specialize (IH g1).
    destruct (draw_rows rows p n g1) as [rs g2]. cbn in *. congruence.
Qed.

Lemma accepted_prefix_all rates :
  forallb valid_rate rates = true -> accepted_prefix rates = rates.
Proof.
  induction rates as [|r rates IH]; cbn [forallb accepted_prefix]; [easy|].
  intros H. apply andb_true_iff in H as [H1 H2]. now rewrite H1, IH.
Qed.


(** *** The batch kept for a rate *)

Lemma last_assoc_drawn_none pop n payout rates g r :
  mem r rates = false ->
  last_assoc r (drawn_batches pop n payout rates g) = None.
Proof.
  revert g; induction rates as [|x rates IH]; intros g; [reflexivity|].
  unfold mem. cbn [existsb drawn_batches last_assoc]. intros H.
  apply orb_false_iff in H as [H1 H2]. now rewrite IH, H1.
Qed.

Lemma last_assoc_drawn pop n payout pre r' post g r :
  Qeq_bool r' r = true -> mem r post = false ->
  last_assoc r (drawn_batches pop n payout (pre ++ r' :: post) g) =
  Some (batch_at pop n payout r' (state_after_rates pop n pre g)).
Proof.
  intros E Hpost. revert g; induction pre as [|x pre IH]; intros g;
    cbn [app drawn_batches last_assoc state_after_rates].
  - now rewrite last_assoc_drawn_none, E.
  - now rewrite IH.
Qed.

(** A rate of the list has a last occurrence. *)
Lemma last_occurrence (rates : list Q) (r : Q) :
  mem r rates = true ->
  exists pre r' post,
    rates = pre ++ r' :: post /\ Qeq_bool r' r = true /\ mem r post = false.
Proof.
  induction rates as [|x rates IH]; [discriminate|].
  unfold mem. cbn [existsb]. fold (mem r rates). intros H.
  destruct (mem r rates) eqn:M.
  - destruct (IH eq_refl) as (pre & r' & post & -> & H1 & H2).
    now exists (x :: pre), r', post.
  - rewrite orb_false_r in H. now exists [], x, rates.
Qed.

Lemma In_mem (rates : list Q) (r : Q) : In r rates -> mem r rates = true.
Proof.
  intros H. unfold mem. apply existsb_exists. exists r. split; [exact H|].
  apply Qeq_bool_refl.
Qed.

Lemma valid_rates_of_domain (rates : list Q) :
  Forall (fun r => (0 <= r < 1)%Q) rates -> forallb valid_rate rates = true.
Proof.
  intros H. apply forallb_forall. intros r Hr.
  rewrite Forall_forall in H. specialize (H r Hr).
  unfold valid_rate. apply valid_p_iff. lra.
Qed.

Lemma Zsum_draws_range (pop row : list Z) :
  Forall2 (fun a x => 0 <= x <= a) pop row -> 0 <= Zsum row <= Zsum pop.
Proof.
  induction 1 as [|a x pop row H _ IH]; cbn [Zsum fold_right]; [lia|].
  fold (Zsum row) (Zsum pop). lia.
Qed.

End EngineFacts.

(** ** The simulation engine: claims *)

Section EngineClaims.
Context {G : BitGenerator}.
Import DictFacts.


Lemma valid_rates_of_closed (rates : list Q) :
  Forall (fun r => (0 <= r <= 1)%Q) rates -> forallb valid_rate rates = true.
Proof.
  intros H. apply forallb_forall. intros r Hr.
  rewrite Forall_forall in H. specialize (H r Hr).
  unfold valid_rate. apply valid_p_iff. lra.
Qed.

Lemma map_fst_drawn_batches pop n payout rates g :
  map fst (drawn_batches pop n payout rates g) = rates.
Proof.
  revert g; induction rates as [|r rates IH]; intros g; cbn; [reflexivity|].
  now rewrite IH.
Qed.

Lemma get_drawn pop n payout pre r' post g r :
  Qeq_bool r' r = true -> mem r post = false ->
  Dict.get (set_all (drawn_batches pop n payout (pre ++ r' :: post) g)
                    Dict.empty) r =
  Some (batch_at pop n payout r' (state_after_rates pop n pre g)).
Proof.
  intros E H. now rewrite get_set_all, (last_assoc_drawn _ _ _ _ _ _ _ _ E H).
Qed.

Lemma keys_drawn pop n payout rates g :
  Dict.keys (set_all (drawn_batches pop n payout rates g) Dict.empty) =
  distinct rates.
Proof.
  rewrite keys_set_all, map_fst_drawn_batches. cbn [Dict.keys Dict.empty map app].
  induction (distinct rates) as [|x xs IH]; [reflexivity|].
  cbn [filter mem existsb negb]. f_equal. exact IH.
Qed.

Lemma count_distinct (rates : list Q) (r : Q) :
  mem r rates = true ->
  length (filter (fun k => Qeq_bool k r) (distinct rates)) = 1%nat.
Proof.
  induction rates as [|x rates IH]; [discriminate|].
  unfold mem. cbn [existsb distinct filter]. fold (mem r rates).
  rewrite filter_filter. intros H.
  destruct (Qeq_bool x r) eqn:E; cbn [length].
  - f_equal. apply length_zero_iff_nil. clear IH H.
    induction (distinct rates) as [|y ys IHy]; cbn; [reflexivity|].
    rewrite (Qeq_bool_congr _ _ y E), (Qeq_bool_sym r y).
    destruct (Qeq_bool y r); cbn; exact IHy.
  - cbn [orb] in H. rewrite <- (IH H). f_equal. apply filter_ext.
    intros y. destruct (Qeq_bool y r) eqn:Ey; [|now rewrite andb_false_r].
    rewrite andb_true_r. rewrite (Qeq_bool_sym x y), (Qeq_bool_congr _ _ x Ey).
    now rewrite Qeq_bool_sym, E.
Qed.


(** C4. With a failure rate equal to 0 in the list, every entry of that
    rate's batch is the 64-bit product of [np.sum(population)] and the
    payout, which is [sum(population) * payout] itself whenever that number
    fits in 64 bits. *)
Theorem zero_failure_rate_pays_every_account
    (pop : list Z) (n : Z) (rates : list Q) (payout : Z) (g : rng) (r : Q) :
  Forall (fun a => 0 <= a) pop ->
  Forall (fun r => (0 <= r < 1)%Q) rates ->
  1 <= n -> In r rates -> (r == 0)%Q ->
  exists results g' batch,
    run_vectorized_simulation pop n rates payout g = (Ok results, g') /\
    Dict.get results r = Some batch /\
    length batch = Z.to_nat n /\
    Forall (fun x => x = mul64 (np_sum pop) payout) batch /\
    (in_range (Zsum pop * payout) ->
     Forall (fun x => x = Zsum pop * payout) batch).
Proof.
  intros Hpop Hrates Hn Hr H0.
  pose proof (valid_rates_of_domain rates Hrates) as V.
  pose proof (proj2 (nonneg_all_iff pop) Hpop) as P.
  rewrite (run_vectorized_simulation_ok pop n rates payout g V P) by lia.
  destruct (last_occurrence rates r (In_mem _ _ Hr))
    as (pre & r' & post & E & Hq & Hpost).
  eexists; eexists; eexists. split; [reflexivity|].
  split; [rewrite E; now apply get_drawn|].
  assert (C : (1 - r' == 1)%Q).
  { apply Qeq_bool_iff in Hq. rewrite Hq, H0. reflexivity. }
  unfold batch_at. rewrite (draw_rows_certain _ _ _ _ C P).
  unfold np_scale, np_sum_axis1. rewrite !map_repeat.
  split; [apply repeat_length|].
  split.
  - apply Forall_forall. intros x Hx. now apply repeat_spec in Hx.
  - intros Hfit. apply Forall_forall. intros x Hx. apply repeat_spec in Hx.
    rewrite Hx, mul64_np_sum. now apply wrap64_in_range.
Qed.

(** C10. On arguments the sampler accepts, the engine returns a dictionary
    whose keys are the distinct rates of the list in order of first
    occurrence, exactly one key for every rate of the list; the batch
    under a rate is the one drawn at its last occurrence, at the generator
    state reached after the rates before it; no error is raised, and a
    list that repeats a rate gives fewer entries than it has rates. *)
Theorem repeated_rate_keeps_last_batch
    (pop : list Z) (n : Z) (rates : list Q) (payout : Z) (g : rng) :
  Forall (fun a => 0 <= a) pop ->
  Forall (fun r => (0 <= r <= 1)%Q) rates ->
  0 <= n ->
  exists results g',
    run_vectorized_simulation pop n rates payout g = (Ok results, g') /\
    Dict.keys results = distinct rates /\
    (forall r, In r rates ->
       length (filter (fun k => Qeq_bool k r) (Dict.keys results)) = 1%nat) /\
    (forall pre r post,
       rates = pre ++ r :: post -> mem r post = false ->
       Dict.get results r =
       Some (batch_at pop n payout r (state_after_rates pop n pre g))) /\
    (length results <= length rates)%nat /\
    (forall pre r mid r' post,
       rates = pre ++ r :: mid ++ r' :: post -> (r == r')%Q ->
       (length results < length rates)%nat).
Proof.
  intros Hpop Hrates Hn.
  pose proof (valid_rates_of_closed rates Hrates) as V.
  pose proof (proj2 (nonneg_all_iff pop) Hpop) as P.
  rewrite (run_vectorized_simulation_ok pop n rates payout g V P) by lia.
  eexists; eexists; split; [reflexivity|].
  pose proof (keys_drawn pop n payout rates g) as K.
  set (results := set_all (drawn_batches pop n payout rates g) Dict.empty) in *.
  assert (L : length results = length (distinct rates)).
  { rewrite <- K. unfold Dict.keys. now rewrite length_map. }
  split; [exact K|].
  split; [intros r Hr; rewrite K; apply count_distinct; now apply In_mem|].
  split.
  { intros pre r post -> Hpost. apply get_drawn; [apply Qeq_bool_refl|exact Hpost]. }
  split; [rewrite L; apply length_distinct|].
  intros pre r mid r' post -> E. rewrite L.
  apply length_distinct_lt. now apply Qeq_bool_iff.
Qed.




End EngineClaims.

(** *** The engine on the reference generator *)


Lemma zero_failure_rate_pays_every_account_witness :
  exists results g' batch,
    run_vectorized_simulation (G := lcg_generator)
      [2; 3] 2 [1 # 2; 0]%Q 10 42 = (Ok results, g') /\
    Dict.get results 0%Q = Some batch /\
    length batch = 2%nat /\
    Forall (fun x => x = 50) batch.
Proof.
  destruct (zero_failure_rate_pays_every_account (G := lcg_generator)
              [2; 3] 2 [1 # 2; 0]%Q 10 42 0%Q)
    as (results & g' & batch & Hrun & Hget & Hlen & Hall & _).
  - repeat constructor; lia.
  - repeat constructor; cbv; discriminate.
  - lia.
  - right; left; reflexivity.
  - reflexivity.
  - exists results, g', batch. repeat split; assumption.
Defined.

Lemma repeated_rate_keeps_last_batch_witness :
  exists results g',
    run_vectorized_simulation (G := lcg_generator)
      [2; 3] 2 [1 # 2; 1 # 4; 2 # 4]%Q 10 42 = (Ok results, g') /\
    Dict.keys results = [1 # 2; 1 # 4]%Q /\
    Dict.get results (2 # 4)%Q =
    Some (batch_at [2; 3] 2 10 (2 # 4)
            (state_after_rates [2; 3] 2 [1 # 2; 1 # 4]%Q 42)) /\
    (length results < 3)%nat.
Proof.
  destruct (repeated_rate_keeps_last_batch (G := lcg_generator)
              [2; 3] 2 [1 # 2; 1 # 4; 2 # 4]%Q 10 42)
    as (results & g' & Hrun & Hkeys & _ & Hlast & _ & Hless).
  - repeat constructor; lia.
  - repeat constructor; cbv; discriminate.
  - lia.
  - exists results, g'. split; [exact Hrun|].
    split; [exact Hkeys|].
    split.
    + apply (Hlast [1 # 2; 1 # 4]%Q (2 # 4)%Q []); reflexivity.
    + apply (Hless [] (1 # 2)%Q [(1 # 4)%Q] (2 # 4)%Q []); reflexivity.
Defined.


(** ** The risk sweeps: claims *)

Section SweepClaims.
Context {G : BitGenerator} {F : FloatSqrt}.
Import DictFacts.

Lemma draw_each_repeat_Forall {A} (sample : A -> rng -> Z * rng)
    (P : Z -> Prop) (a : A) (k : nat) (g : rng) :
  (forall g', P (fst (sample a g'))) ->
  Forall P (fst (draw_each sample (repeat a k) g)).
Proof.
  intros H. revert g; induction k as [|k IH]; intros g; cbn [repeat draw_each].
  - constructor.
  - specialize (H g) as Hg. destruct (sample a g) as [x g1]. specialize (IH g1).
    destruct (draw_each sample (repeat a k) g1) as [xs g2]. cbn in *.
    now constructor.
Qed.

Lemma np_random_poisson_ok (lam size : Z) (g : rng) :
  0 <= lam -> 0 <= size ->
  exists pop g',
    np_random_poisson lam size g = (Ok pop, g') /\
    pop = fst (draw_each random_poisson (repeat lam (Z.to_nat size)) g) /\
    length pop = Z.to_nat size /\ Forall (fun a => 0 <= a) pop.
Proof.
  intros Hl Hs. unfold np_random_poisson.
  assert (E1 : (lam <? 0) = false) by (apply Z.ltb_ge; lia).
  assert (E2 : (size <? 0) = false) by (apply Z.ltb_ge; lia).
  rewrite E1, E2.
  pose proof (draw_each_length random_poisson (repeat lam (Z.to_nat size)) g) as L.
  pose proof (draw_each_repeat_Forall random_poisson (fun a => 0 <= a) lam
                (Z.to_nat size) g
                (fun g' => random_poisson_nonneg lam g' Hl)) as N.
  destruct (draw_each random_poisson (repeat lam (Z.to_nat size)) g)
    as [xs g'] eqn:E.
  exists xs, g'. cbn [fst] in *. rewrite repeat_length in L. auto.
Qed.

Lemma np_random_randint_ok (low high size : Z) (g : rng) :
  low < high -> 0 <= size ->
  exists pop g',
    np_random_randint low high size g = (Ok pop, g') /\
    pop = fst (draw_each (fun lo => random_bounded lo (high - 1))
                 (repeat low (Z.to_nat size)) g) /\
    length pop = Z.to_nat size /\ Forall (fun a => low <= a <= high - 1) pop.
Proof.
  intros Hl Hs. unfold np_random_randint.
  assert (E1 : (high <=? low) = false) by (apply Z.leb_gt; lia).
  assert (E2 : (size <? 0) = false) by (apply Z.ltb_ge; lia).
  rewrite E1, E2.
  pose proof (draw_each_length (fun lo => random_bounded lo (high - 1))
                (repeat low (Z.to_nat size)) g) as L.
  pose proof (draw_each_repeat_Forall (fun lo => random_bounded lo (high - 1))
                (fun a => low <= a <= high - 1) low (Z.to_nat size) g
                (fun g' => random_bounded_range low (high - 1) g'
                             ltac:(lia))) as N.
  destruct (draw_each (fun lo => random_bounded lo (high - 1))
              (repeat low (Z.to_nat size)) g) as [xs g'] eqn:E.
  exists xs, g'. cbn [fst] in *. rewrite repeat_length in L. auto.
Qed.

Lemma sweep_loop_ok (generate : Z -> M (list Z)) (P : Z -> list Z -> Prop)
    (n : Z) (rates : list Q) (payout : Z) (axes : list Z) :
  0 <= n -> forallb valid_rate rates = true ->
  (forall a g, In a axes ->
     exists pop g', generate a g = (Ok pop, g') /\
                    Forall (fun x => 0 <= x) pop /\ P a pop) ->
  forall acc g,
  exists points g',
    sweep_loop generate n rates payout axes acc g =
      (Ok (acc ++ flat_map rows_of_point points), g') /\
    sweep_chain generate n rates payout axes g points g' /\
    map point_axis points = axes /\
    Forall (fun pt =>
              P (point_axis pt) (point_population pt) /\
              Dict.keys (point_results pt) = distinct rates) points.
Proof.
  intros Hn V Hgen. induction axes as [|a axes IH]; intros acc g.
  - exists [], g. cbn. rewrite app_nil_r. repeat split; constructor.
  - destruct (Hgen a g (or_introl eq_refl)) as (pop & g1 & Egen & Hpop & HP).
    pose proof (proj2 (nonneg_all_iff pop) Hpop) as Np.
    pose proof (run_vectorized_simulation_ok pop n rates payout g1 V Np Hn) as Erun.
    set (sim := set_all (drawn_batches pop n payout rates g1) Dict.empty) in *.
    destruct (IH (fun a' g' H => Hgen a' g' (or_intror H))
                 (acc ++ risk_rows a sim) (state_after_rates pop n rates g1))
      as (points & g' & Eloop & Hchain & Haxes & Hall).
    exists ({| point_axis := a; point_population := pop;
               point_results := sim |} :: points), g'.
    split.
    + unfold sweep_loop in *. cbn [for_each]. unfold bind at 1.
      unfold bind at 1. rewrite Egen. unfold bind at 1. rewrite Erun.
      unfold ret at 1. rewrite Eloop. cbn [flat_map].
      unfold rows_of_point at 2. cbn [point_axis point_results].
      now rewrite app_assoc.
    + split; [econstructor; eassumption|].
      split; [cbn; now rewrite Haxes|].
      constructor; [|exact Hall]. cbn. split; [exact HP|].
      apply keys_drawn.
Qed.

Lemma run_risk_analysis_chain
    (num_traders n : Z) (rates : list Q) (payout : Z) (g : rng) :
  0 <= num_traders -> 0 <= n -> Forall (fun r => (0 <= r <= 1)%Q) rates ->
  (exists points g',
      run_risk_analysis num_traders n rates payout g =
        (Ok (flat_map rows_of_point points), g') /\
      sweep_chain (fun avg_acc => np_random_poisson avg_acc num_traders)
                  n rates payout (py_range 1 21) g points g' /\
      map point_axis points =
        [1; 2; 3; 4; 5; 6; 7; 8; 9; 10; 11; 12; 13; 14; 15; 16; 17; 18; 19; 20] /\
      Forall (fun pt =>
                (length (point_population pt) = Z.to_nat num_traders /\
                 Forall (fun a => 0 <= a) (point_population pt)) /\
                Dict.keys (point_results pt) = distinct rates) points).
Proof.
  intros Ht Hn Hrates.
  pose proof (valid_rates_of_closed rates Hrates) as V.
  destruct (sweep_loop_ok
              (fun avg_acc => np_random_poisson avg_acc num_traders)
              (fun _ pop => length pop = Z.to_nat num_traders /\
                            Forall (fun a => 0 <= a) pop)
              n rates payout (py_range 1 21) Hn V) with (acc := @nil risk_row) (g := g)
    as (points & g' & E & C & A & H).
  - intros a g0 Ha.
    assert (0 <= a).
    { vm_compute in Ha. repeat (destruct Ha as [<-|Ha]; [lia|]). easy. }
    destruct (np_random_poisson_ok a num_traders g0) as (pop & g1 & E & _ & L & N);
      try lia.
    exists pop, g1. auto.
  - exists points, g'. repeat split; assumption.
Qed.

Lemma run_randomized_risk_analysis_chain
    (num_traders n : Z) (rates : list Q) (payout : Z) (g : rng) :
  0 <= num_traders -> 0 <= n -> Forall (fun r => (0 <= r <= 1)%Q) rates ->
  (exists points g',
      run_randomized_risk_analysis num_traders n rates payout g =
        (Ok (flat_map rows_of_point points), g') /\
      sweep_chain (fun max_range_val =>
                     np_random_randint 1 (max_range_val + 1) num_traders)
                  n rates payout (py_range 2 21) g points g' /\
      map point_axis points =
        [2; 3; 4; 5; 6; 7; 8; 9; 10; 11; 12; 13; 14; 15; 16; 17; 18; 19; 20] /\
      Forall (fun pt =>
                (length (point_population pt) = Z.to_nat num_traders /\
                 Forall (fun a => 1 <= a <= point_axis pt)
                        (point_population pt)) /\
                Dict.keys (point_results pt) = distinct rates) points).
Proof.
  intros Ht Hn Hrates.
  pose proof (valid_rates_of_closed rates Hrates) as V.
  destruct (sweep_loop_ok
              (fun max_range_val =>
                 np_random_randint 1 (max_range_val + 1) num_traders)
              (fun a pop => length pop = Z.to_nat num_traders /\
                            Forall (fun x => 1 <= x <= a) pop)
              n rates payout (py_range 2 21) Hn V) with (acc := @nil risk_row) (g := g)
    as (points & g' & E & C & A & H).
  - intros a g0 Ha.
    assert (2 <= a).
    { vm_compute in Ha. repeat (destruct Ha as [<-|Ha]; [lia|]). easy. }
    destruct (np_random_randint_ok 1 (a + 1) num_traders g0)
      as (pop & g1 & E & _ & L & N); try lia.
    exists pop, g1. split; [exact E|].
    split; [eapply Forall_impl; [|exact N]; cbn; lia|].
    split; [exact L|]. eapply Forall_impl; [|exact N]. cbn. lia.
  - exists points, g'. repeat split; assumption.
Qed.


End SweepClaims.

(** ** The financial derivations *)

Module Derivations.

Lemma series_min_spec (qs : list Q) :
  match series_min qs with
  | None => qs = []
  | Some m => In m qs /\ forall q, In q qs -> (m <= q)%Q
  end.
Proof.
  induction qs as [|x qs IH]; cbn [series_min]; [reflexivity|].
  destruct (series_min qs) as [m|].
  - destruct IH as [Hin Hmin].
    destruct (Qle_bool x m) eqn:E.
    + apply Qle_bool_iff in E. split; [now left|].
      intros q [<-|Hq]; [apply Qle_refl|].
      eapply Qle_trans; [exact E|now apply Hmin].
    + assert (L : (m < x)%Q).
      { apply Qnot_le_lt. intros C. apply Qle_bool_iff in C. congruence. }
      split; [now right|].
      intros q [<-|Hq]; [now apply Qlt_le_weak|now apply Hmin].
  - subst qs. split; [now left|].
    intros q [<-|[]]. apply Qle_refl.
Qed.

(** The breakeven tab never raises; it names a profitable rate that no
    other profitable rate undercuts, or reports that no row is profitable. *)
Lemma breakeven_tab_spec (df : list (Q * float64)) :
  exists msg,
    breakeven_tab df = Ok msg /\
    match msg with
    | Lowest_profitable r =>
        (exists p, In (r, p) df /\ fgt p (Fin 0) = true) /\
        (forall r' p', In (r', p') df -> fgt p' (Fin 0) = true -> (r <= r')%Q)
    | No_profitable_rate =>
        forall r' p', In (r', p') df -> fgt p' (Fin 0) = false
    end.
Proof.
  unfold breakeven_tab.
  set (profitable := filter (fun row => fgt (snd row) (Fin 0)) df).
  pose proof (series_min_spec (map fst profitable)) as S.
  destruct (series_min (map fst profitable)) as [m|].
  - destruct S as [Hin Hmin].
    apply in_map_iff in Hin as ([r p] & Hr & Hrow). cbn [fst] in Hr. subst r.
    pose proof Hrow as Hrow'. apply filter_In in Hrow' as [Hdf Hp].
    cbn [snd] in Hp.
    destruct (filter (fun row => Qeq_bool (fst row) m) profitable) as [|h t] eqn:E.
    + exfalso.
      assert (X : In (m, p) (filter (fun row => Qeq_bool (fst row) m) profitable)).
      { apply filter_In. split; [exact Hrow|]. apply DictFacts.Qeq_bool_refl. }
      rewrite E in X. exact X.
    + eexists. split; [reflexivity|]. split.
      * now exists p.
      * intros r' p' Hin' Hp'. apply Hmin.
        apply in_map_iff. exists (r', p'). split; [reflexivity|].
        apply filter_In. now split.
  - eexists. split; [reflexivity|].
    intros r' p' Hin'. destruct (fgt p' (Fin 0)) eqn:E; [|reflexivity].
    exfalso. apply map_eq_nil in S.
    assert (X : In (r', p') profitable) by (apply filter_In; now split).
    rewrite S in X. exact X.
Qed.

Lemma In_insert_by_rate (row x : Q * float64) (rows : list (Q * float64)) :
  In x (insert_by_rate row rows) <-> x = row \/ In x rows.
Proof.
  induction rows as [|r rows IH]; cbn [insert_by_rate].
  - cbn. intuition congruence.
  - destruct (Qle_bool (fst row) (fst r)); cbn [In] in *.
    + intuition congruence.
    + rewrite IH. intuition congruence.
Qed.

Lemma In_sort_values (x : Q * float64) (rows : list (Q * float64)) :
  In x (sort_values_failure_rate rows) <-> In x rows.
Proof.
  unfold sort_values_failure_rate.
  induction rows as [|r rows IH]; cbn [fold_right In]; [tauto|].
  rewrite In_insert_by_rate, IH. intuition congruence.
Qed.

Lemma In_profit_data (tr : Z) (results : Dict.t (list Z)) (r : Q) (p : float64) :
  In (r, p) (profit_data tr results) <->
  exists payouts,
    In (r, payouts) (Dict.items results) /\
    p = fsub (of_int64 tr) (np_mean payouts).
Proof.
  unfold profit_data. rewrite in_map_iff. split.
  - intros ([r' payouts] & E & Hin). inversion E; subst. now exists payouts.
  - intros (payouts & Hin & ->). now exists (r, payouts).
Qed.

End Derivations.

(** ** The application: claims *)

Section ApplicationClaims.
Context {G : BitGenerator} {F : FloatSqrt}.
Import DictFacts Derivations.

Lemma get_drawn_some pop n payout rates g r :
  mem r rates = true ->
  exists batch,
    Dict.get (set_all (drawn_batches pop n payout rates g) Dict.empty) r =
    Some batch.
Proof.
  intros H. destruct (last_occurrence rates r H) as (pre & r' & post & -> & E & P).
  eexists. now apply get_drawn.
Qed.

Lemma scenario_tab_ok (tr : Z) (results : Dict.t (list Z)) (rates : list Q) :
  (forall r, In r rates -> exists batch, Dict.get results r = Some batch) ->
  exists ms,
    scenario_tab tr results rates = Ok ms /\
    Forall2 (fun r m => scenario_metrics_of tr results r = Ok m) rates ms.
Proof.
  induction rates as [|r rates IH]; intros H; cbn [scenario_tab].
  - exists []. split; [reflexivity|constructor].
  - destruct (H r (or_introl eq_refl)) as (batch & Hb).
    destruct (IH (fun r' Hr' => H r' (or_intror Hr'))) as (ms & E & Hall).
    unfold scenario_metrics_of at 1. rewrite Hb, E.
    eexists. split; [reflexivity|].
    constructor; [|exact Hall]. unfold scenario_metrics_of. now rewrite Hb.
Qed.

Lemma generate_trader_accounts_ok (m : distribution_mode) (size : Z) (g : rng) :
  0 <= size ->
  match m with
  | Simulate_Average avg => 0 <= avg
  | Randomized range => 0 <= fst range <= snd range
  end ->
  exists pop g',
    generate_trader_accounts m size g = (Ok pop, g') /\
    length pop = Z.to_nat size /\ Forall (fun a => 0 <= a) pop.
Proof.
  intros Hs Hm. destruct m as [avg|range]; cbn [generate_trader_accounts].
  - destruct (np_random_poisson_ok avg size g Hm Hs) as (pop & g' & E & _ & L & N).
    now exists pop, g'.
  - destruct (np_random_randint_ok (fst range) (snd range + 1) size g)
      as (pop & g' & E & _ & L & N); try lia.
    exists pop, g'. split; [exact E|]. split; [exact L|].
    eapply Forall_impl; [|exact N]. cbn. lia.
Qed.

Lemma scenario_rates_valid :
  Forall (fun r => (0 <= r <= 1)%Q) scenario_failure_rates.
Proof. repeat constructor; cbv; discriminate. Qed.

Lemma failure_rate_range_valid : forallb valid_rate failure_rate_range = true.
Proof. vm_compute. reflexivity. Qed.

Lemma failure_rate_range_distinct :
  distinct failure_rate_range = failure_rate_range.
Proof. vm_compute. reflexivity. Qed.

(** What a run of the application computes, step by step. *)
Lemma main_app_ok (ui : sidebar) (g : rng) :
  sidebar_accepted ui ->
  exists rep g1 g2 g3 g' points,
    main_app ui g = (Ok rep, g') /\
    generate_trader_accounts (mode ui) (num_traders ui) g
      = (Ok (trader_accounts rep), g1) /\
    Forall (fun a => 0 <= a) (trader_accounts rep) /\
    run_vectorized_simulation (trader_accounts rep) (n_simulations ui)
      scenario_failure_rates (payout_per_successful_account ui) g1
      = (Ok (simulation_results rep), g2) /\
    run_vectorized_simulation (trader_accounts rep) (n_simulations ui)
      failure_rate_range (payout_per_successful_account ui) g2
      = (Ok (breakeven_results rep), g3) /\
    match mode ui with
    | Simulate_Average _ =>
        sweep_chain (fun avg_acc => np_random_poisson avg_acc (num_traders ui))
          (n_simulations ui) scenario_failure_rates
          (payout_per_successful_account ui) (py_range 1 21) g3 points g'
    | Randomized _ =>
        sweep_chain
          (fun max_range_val =>
             np_random_randint 1 (max_range_val + 1) (num_traders ui))
          (n_simulations ui) scenario_failure_rates
          (payout_per_successful_account ui) (py_range 2 21) g3 points g'
    end /\
    df_risk_analysis rep = flat_map rows_of_point points /\
    total_accounts rep = np_sum (trader_accounts rep) /\
    total_revenue rep =
      compute_total_revenue (total_accounts rep) (cost_per_account ui)
                            (additional_revenue ui) /\
    df_all_scenarios rep =
      all_scenarios_data (total_revenue rep) (simulation_results rep) /\
    df_profit rep =
      sort_values_failure_rate
        (profit_data (total_revenue rep) (breakeven_results rep)) /\
    scenario_tab (total_revenue rep) (simulation_results rep)
                 scenario_failure_rates = Ok (tab1 rep) /\
    breakeven_tab (df_profit rep) = Ok (tab2 rep).
Proof.
  intros (Ht & Hn & Hm).
  destruct (generate_trader_accounts_ok (mode ui) (num_traders ui) g Ht Hm)
    as (pop & g1 & Egen & _ & Npop).
  pose proof (proj2 (nonneg_all_iff pop) Npop) as Np.
  set (payout := payout_per_successful_account ui).
  set (n := n_simulations ui) in *.
  pose proof (run_vectorized_simulation_ok pop n scenario_failure_rates payout g1
                (valid_rates_of_closed _ scenario_rates_valid) Np Hn) as Escen.
  set (sim := set_all (drawn_batches pop n payout scenario_failure_rates g1)
                      Dict.empty) in *.
  set (g2 := state_after_rates pop n scenario_failure_rates g1) in *.
  pose proof (run_vectorized_simulation_ok pop n failure_rate_range payout g2
                failure_rate_range_valid Np Hn) as Ebrk.
  set (brk := set_all (drawn_batches pop n payout failure_rate_range g2)
                      Dict.empty) in *.
  set (g3 := state_after_rates pop n failure_rate_range g2) in *.
  set (tr := compute_total_revenue (np_sum pop) (cost_per_account ui)
                                   (additional_revenue ui)).
  destruct (scenario_tab_ok tr sim scenario_failure_rates) as (ms & Etab1 & _).
  { intros r Hr. apply get_drawn_some. now apply In_mem. }
  destruct (breakeven_tab_spec
              (sort_values_failure_rate (profit_data tr brk)))
    as (msg & Etab2 & _).
  assert (Sweep :
    exists points g',
      match mode ui with
      | Simulate_Average _ =>
          run_risk_analysis (num_traders ui) n scenario_failure_rates payout
      | Randomized _ =>
          run_randomized_risk_analysis (num_traders ui) n
            scenario_failure_rates payout
      end g3 = (Ok (flat_map rows_of_point points), g') /\
      match mode ui with
      | Simulate_Average _ =>
          sweep_chain (fun avg_acc => np_random_poisson avg_acc (num_traders ui))
            n scenario_failure_rates payout (py_range 1 21) g3 points g'
      | Randomized _ =>
          sweep_chain
            (fun max_range_val =>
               np_random_randint 1 (max_range_val + 1) (num_traders ui))
            n scenario_failure_rates payout (py_range 2 21) g3 points g'
      end).
  { destruct (mode ui).
    - destruct (run_risk_analysis_chain (num_traders ui) n
                  scenario_failure_rates payout g3 Ht Hn scenario_rates_valid)
        as (points & g' & E & C & _).
      exists points, g'. split; [exact E|exact C].
    - destruct (run_randomized_risk_analysis_chain (num_traders ui) n
                  scenario_failure_rates payout g3 Ht Hn scenario_rates_valid)
        as (points & g' & E & C & _).
      exists points, g'. split; [exact E|exact C]. }
  destruct Sweep as (points & g' & Esweep & Chain).
  exists {| trader_accounts := pop;
            total_accounts := np_sum pop;
            total_revenue := tr;
            simulation_results := sim;
            df_all_scenarios := all_scenarios_data tr sim;
            breakeven_results := brk;
            df_profit := sort_values_failure_rate (profit_data tr brk);
            df_risk_analysis := flat_map rows_of_point points;
            tab1 := ms;
            tab2 := msg |}, g1, g2, g3, g', points.
  cbn [trader_accounts total_accounts total_revenue simulation_results
       df_all_scenarios breakeven_results df_profit df_risk_analysis tab1 tab2].
  split.
  { unfold main_app. unfold bind at 1. rewrite Egen.
    unfold bind at 1. fold n payout. rewrite Escen.
    unfold bind at 1. rewrite Ebrk.
    unfold bind at 1. rewrite Esweep.
    unfold bind at 1, lift at 1. fold tr. rewrite Etab1.
    unfold bind at 1, lift at 1. rewrite Etab2. reflexivity. }
  repeat split; try assumption; try reflexivity.
Qed.

Lemma sweep_chain_points (generate : Z -> M (list Z)) n rates payout
    axes g points g' :
  sweep_chain generate n rates payout axes g points g' ->
  map point_axis points = axes /\
  Forall (fun pt =>
            exists ga gb gc,
              generate (point_axis pt) ga = (Ok (point_population pt), gb) /\
              run_vectorized_simulation (point_population pt) n rates payout gb
              = (Ok (point_results pt), gc)) points.
Proof.
  induction 1 as [|a axes g pop g1 sim g2 points g3 Egen Erun _ [IHa IHp]].
  - split; constructor.
  - split; [cbn; now rewrite IHa|].
    constructor; [|exact IHp]. cbn. now exists g, g1, g2.
Qed.

Lemma scenario_tab_rows (tr : Z) (results : Dict.t (list Z)) (rates : list Q)
    (ms : list scenario_metrics) :
  scenario_tab tr results rates = Ok ms ->
  Forall2
    (fun rate m =>
       exists payouts,
         Dict.get results rate = Some payouts /\
         m = {| scenario_rate := rate;
                mean_payout := np_mean payouts;
                std_payout := np_std payouts;
                estimated_net_profit := fsub (of_int64 tr) (np_mean payouts);
                profit_minus_1_std :=
                  fsub (of_int64 tr) (fadd (np_mean payouts) (np_std payouts));
                profit_plus_1_std :=
                  fsub (of_int64 tr) (fsub (np_mean payouts) (np_std payouts)) |})
    rates ms.
Proof.
  revert ms; induction rates as [|r rates IH]; intros ms; cbn [scenario_tab].
  - intros E. inversion E. constructor.
  - unfold scenario_metrics_of.
    destruct (Dict.get results r) as [payouts|] eqn:Hget; [|discriminate].
    destruct (scenario_tab tr results rates) as [ms'|e]; [|discriminate].
    intros E. inversion E; subst. constructor; [|now apply IH].
    now exists payouts.
Qed.

Lemma compute_total_revenue_wrap (pop : list Z) (cost additional : Z) :
  compute_total_revenue (np_sum pop) cost additional =
  wrap64 (Zsum pop * cost + additional).
Proof.
  unfold compute_total_revenue, add64. now rewrite mul64_np_sum, wrap64_add_l.
Qed.

Lemma all_scenarios_use_revenue (tr : Z) (results : Dict.t (list Z)) :
  Forall (fun row => associated_profit row = sub64 tr (simulated_payout row))
         (all_scenarios_data tr results).
Proof.
  apply Forall_forall. intros row Hrow. unfold all_scenarios_data in Hrow.
  apply in_flat_map in Hrow as ([rate payouts] & _ & Hin).
  apply in_map_iff in Hin as (x & <- & _). reflexivity.
Qed.

Lemma insert_by_rate_sorted (row : Q * float64) (rows : list (Q * float64)) :
  Sorted (fun a b => (fst a <= fst b)%Q) rows ->
  Sorted (fun a b => (fst a <= fst b)%Q) (insert_by_rate row rows).
Proof.
  induction 1 as [|r rows Hs IH Hd]; cbn [insert_by_rate].
  - repeat constructor.
  - destruct (Qle_bool (fst row) (fst r)) eqn:E.
    + apply Qle_bool_iff in E. repeat constructor; assumption.
    + assert (L : (fst r <= fst row)%Q).
      { apply Qlt_le_weak, Qnot_le_lt. intros C.
        apply Qle_bool_iff in C. congruence. }
      constructor; [exact IH|].
      destruct rows as [|r' rows]; cbn [insert_by_rate].
      * now constructor.
      * destruct (Qle_bool (fst row) (fst r')); constructor;
          [exact L|now inversion Hd].
Qed.

Lemma sort_values_sorted (rows : list (Q * float64)) :
  Sorted (fun a b => (fst a <= fst b)%Q) (sort_values_failure_rate rows).
Proof.
  unfold sort_values_failure_rate.
  induction rows as [|r rows IH]; cbn [fold_right]; [constructor|].
  now apply insert_by_rate_sorted.
Qed.

Lemma keys_of_run pop n rates payout g results g' :
  forallb valid_rate rates = true -> Forall (fun a => 0 <= a) pop -> 0 <= n ->
  run_vectorized_simulation pop n rates payout g = (Ok results, g') ->
  Dict.keys results = distinct rates.
Proof.
  intros V Np Hn E.
  rewrite (run_vectorized_simulation_ok _ _ _ _ _ V
             (proj2 (nonneg_all_iff _) Np) Hn) in E.
  injection E as <- _. apply keys_drawn.
Qed.

Lemma failure_rate_range_values :
  map Qred failure_rate_range =
  map (fun k => Qred (Qmake k 100)) (py_range 1 100).
Proof. vm_compute. reflexivity. Qed.

(** C3. On sidebar values no sampler refuses, a run of the application
    draws one population, hands that same population to the engine for the
    scenario rates and again for the whole breakeven sweep, and then runs
    the sensitivity sweep, in which every axis point draws a population of
    its own before its engine run.  Values are immutable in the model: the
    population the report holds at the end is the one that was drawn. *)
Theorem population_drawn_once_and_reused (ui : sidebar) (g : rng) :
  sidebar_accepted ui ->
  exists rep g1 g2 g3 g' points,
    main_app ui g = (Ok rep, g') /\
    generate_trader_accounts (mode ui) (num_traders ui) g
      = (Ok (trader_accounts rep), g1) /\
    run_vectorized_simulation (trader_accounts rep) (n_simulations ui)
      scenario_failure_rates (payout_per_successful_account ui) g1
      = (Ok (simulation_results rep), g2) /\
    run_vectorized_simulation (trader_accounts rep) (n_simulations ui)
      failure_rate_range (payout_per_successful_account ui) g2
      = (Ok (breakeven_results rep), g3) /\
    df_risk_analysis rep = flat_map rows_of_point points /\
    match mode ui with
    | Simulate_Average _ =>
        sweep_chain (fun avg_acc => np_random_poisson avg_acc (num_traders ui))
          (n_simulations ui) scenario_failure_rates
          (payout_per_successful_account ui) (py_range 1 21) g3 points g' /\
        map point_axis points = py_range 1 21 /\
        Forall (fun pt =>
                  exists ga gb gc,
                    np_random_poisson (point_axis pt) (num_traders ui) ga
                    = (Ok (point_population pt), gb) /\
                    run_vectorized_simulation (point_population pt)
                      (n_simulations ui) scenario_failure_rates
                      (payout_per_successful_account ui) gb
                    = (Ok (point_results pt), gc)) points
    | Randomized _ =>
        sweep_chain
          (fun max_range_val =>
             np_random_randint 1 (max_range_val + 1) (num_traders ui))
          (n_simulations ui) scenario_failure_rates
          (payout_per_successful_account ui) (py_range 2 21) g3 points g' /\
        map point_axis points = py_range 2 21 /\
        Forall (fun pt =>
                  exists ga gb gc,
                    np_random_randint 1 (point_axis pt + 1) (num_traders ui) ga
                    = (Ok (point_population pt), gb) /\
                    run_vectorized_simulation (point_population pt)
                      (n_simulations ui) scenario_failure_rates
                      (payout_per_successful_account ui) gb
                    = (Ok (point_results pt), gc)) points
    end.
Proof.
  intros Hui.
  destruct (main_app_ok ui g Hui)
    as (rep & g1 & g2 & g3 & g' & points & Emain & Egen & _ & Escen & Ebrk
        & Chain & Erisk & _).
  exists rep, g1, g2, g3, g', points.
  repeat (split; [assumption|]).
  destruct (mode ui).
  - destruct (sweep_chain_points _ _ _ _ _ _ _ _ Chain) as [A P]. auto.
  - destruct (sweep_chain_points _ _ _ _ _ _ _ _ Chain) as [A P]. auto.
Qed.

(** C5. On sidebar values no sampler refuses, the breakeven results hold
    one batch for each rate 0.01, 0.02, ..., 0.99; the profit table pairs
    each of these rates with the total revenue minus the mean of its batch,
    in ascending order of rate; and the breakeven tab, which never raises,
    names a rate whose estimated profit is above zero and that is no larger
    than any other such rate, or, when no rate has an estimated profit above
    zero, reports that none was found. *)
Theorem breakeven_names_lowest_profitable_rate (ui : sidebar) (g : rng) :
  sidebar_accepted ui ->
  exists rep g',
    main_app ui g = (Ok rep, g') /\
    Dict.keys (breakeven_results rep) = failure_rate_range /\
    map Qred failure_rate_range =
      map (fun k => Qred (Qmake k 100)) (py_range 1 100) /\
    (forall r p,
        In (r, p) (df_profit rep) <->
        exists payouts,
          In (r, payouts) (Dict.items (breakeven_results rep)) /\
          p = fsub (of_int64 (total_revenue rep)) (np_mean payouts)) /\
    Sorted (fun a b => (fst a <= fst b)%Q) (df_profit rep) /\
    breakeven_tab (df_profit rep) = Ok (tab2 rep) /\
    match tab2 rep with
    | Lowest_profitable r =>
        (exists p, In (r, p) (df_profit rep) /\ fgt p (Fin 0) = true) /\
        (forall r' p',
            In (r', p') (df_profit rep) -> fgt p' (Fin 0) = true ->
            (r <= r')%Q)
    | No_profitable_rate =>
        forall r' p', In (r', p') (df_profit rep) -> fgt p' (Fin 0) = false
    end.
Proof.
  intros Hui.
  destruct (main_app_ok ui g Hui)
    as (rep & g1 & g2 & g3 & g' & points & Emain & _ & Npop & _ & Ebrk
        & _ & _ & _ & _ & _ & Eprofit & _ & Etab2).
  exists rep, g'. split; [exact Emain|].
  split.
  { destruct Hui as (_ & Hn & _).
    rewrite (keys_of_run _ _ _ _ _ _ _ failure_rate_range_valid Npop Hn Ebrk).
    apply failure_rate_range_distinct. }
  split; [exact failure_rate_range_values|].
  split.
  { intros r p. rewrite Eprofit, In_sort_values. apply In_profit_data. }
  split; [rewrite Eprofit; apply sort_values_sorted|].
  split; [exact Etab2|].
  destruct (breakeven_tab_spec (df_profit rep)) as (msg & E & Hspec).
  rewrite Etab2 in E. inversion E; subst msg. exact Hspec.
Qed.

(** C7. On sidebar values no sampler refuses, the report's total revenue
    is the 64-bit value of (sum of the population) * (revenue per account)
    + (additional revenue), the number itself whenever it fits in 64 bits;
    it is a single value of the run, and it is the one from which every
    scenario row's profit, every scenario's estimated profit and profit
    range, and every row of the breakeven curve are computed. *)
Theorem total_revenue_shared_by_all_scenarios (ui : sidebar) (g : rng) :
  sidebar_accepted ui ->
  exists rep g',
    main_app ui g = (Ok rep, g') /\
    total_accounts rep = np_sum (trader_accounts rep) /\
    total_revenue rep =
      wrap64 (Zsum (trader_accounts rep) * cost_per_account ui
              + additional_revenue ui) /\
    (in_range (Zsum (trader_accounts rep) * cost_per_account ui
               + additional_revenue ui) ->
     total_revenue rep =
       Zsum (trader_accounts rep) * cost_per_account ui
       + additional_revenue ui) /\
    Forall (fun row =>
              associated_profit row =
              sub64 (total_revenue rep) (simulated_payout row))
           (df_all_scenarios rep) /\
    Forall2
      (fun rate m =>
         exists payouts,
           Dict.get (simulation_results rep) rate = Some payouts /\
           estimated_net_profit m =
             fsub (of_int64 (total_revenue rep)) (np_mean payouts) /\
           profit_minus_1_std m =
             fsub (of_int64 (total_revenue rep))
                  (fadd (np_mean payouts) (np_std payouts)) /\
           profit_plus_1_std m =
             fsub (of_int64 (total_revenue rep))
                  (fsub (np_mean payouts) (np_std payouts)))
      scenario_failure_rates (tab1 rep) /\
    (forall r p,
        In (r, p) (df_profit rep) <->
        exists payouts,
          In (r, payouts) (Dict.items (breakeven_results rep)) /\
          p = fsub (of_int64 (total_revenue rep)) (np_mean payouts)).
Proof.
  intros Hui.
  destruct (main_app_ok ui g Hui)
    as (rep & g1 & g2 & g3 & g' & points & Emain & _ & _ & _ & _
        & _ & _ & Eacc & Erev & Escen & Eprofit & Etab1 & _).
  exists rep, g'. split; [exact Emain|].
  split; [exact Eacc|].
  assert (W : total_revenue rep =
              wrap64 (Zsum (trader_accounts rep) * cost_per_account ui
                      + additional_revenue ui)).
  { rewrite Erev, Eacc. apply compute_total_revenue_wrap. }
  split; [exact W|].
  split; [intros R; rewrite W; now apply wrap64_in_range|].
  split; [rewrite Escen; apply all_scenarios_use_revenue|].
  split.
  { eapply Forall2_impl; [|exact (scenario_tab_rows _ _ _ _ Etab1)].
    cbn beta. intros rate m (payouts & Hget & ->). exists payouts.
    cbn. auto. }
  intros r p. rewrite Eprofit, In_sort_values. apply In_profit_data.
Qed.

(** C8. On sidebar values no sampler refuses, the scenario tab is the
    value of the pure function [scenario_tab] on the total revenue and the
    simulation results (it takes no generator), and for each of the five
    scenario rates it reports the mean and the standard deviation of that
    rate's batch and the range from total revenue - (mean + std) to
    total revenue - (mean - std). *)
Theorem profit_range_is_one_standard_deviation (ui : sidebar) (g : rng) :
  sidebar_accepted ui ->
  exists rep g',
    main_app ui g = (Ok rep, g') /\
    scenario_tab (total_revenue rep) (simulation_results rep)
                 scenario_failure_rates = Ok (tab1 rep) /\
    Forall2
      (fun rate m =>
         exists payouts,
           Dict.get (simulation_results rep) rate = Some payouts /\
           scenario_rate m = rate /\
           mean_payout m = np_mean payouts /\
           std_payout m = np_std payouts /\
           profit_minus_1_std m =
             fsub (of_int64 (total_revenue rep))
                  (fadd (mean_payout m) (std_payout m)) /\
           profit_plus_1_std m =
             fsub (of_int64 (total_revenue rep))
                  (fsub (mean_payout m) (std_payout m)))
      scenario_failure_rates (tab1 rep).
Proof.
  intros Hui.
  destruct (main_app_ok ui g Hui)
    as (rep & g1 & g2 & g3 & g' & points & Emain & _ & _ & _ & _
        & _ & _ & _ & _ & _ & _ & Etab1 & _).
  exists rep, g'. split; [exact Emain|]. split; [exact Etab1|].
  eapply Forall2_impl; [|exact (scenario_tab_rows _ _ _ _ Etab1)].
  cbn beta. intros rate m (payouts & Hget & ->). exists payouts.
  cbn. auto 10.
Qed.

End ApplicationClaims.

(** *** The sweeps and the application on the reference generator *)

Lemma sample_sidebar_accepted : sidebar_accepted sample_sidebar.
Proof. cbv. intuition discriminate. Defined.


Lemma population_drawn_once_and_reused_witness :
  exists rep g1 g2 g3 g',
    main_app (G := lcg_generator) (F := lcg_sqrt) sample_sidebar 42
      = (Ok rep, g') /\
    run_vectorized_simulation (trader_accounts rep) 2
      scenario_failure_rates 1000 g1 = (Ok (simulation_results rep), g2) /\
    run_vectorized_simulation (trader_accounts rep) 2
      failure_rate_range 1000 g2 = (Ok (breakeven_results rep), g3).
Proof.
  destruct (population_drawn_once_and_reused
              (G := lcg_generator) (F := lcg_sqrt) sample_sidebar 42
              sample_sidebar_accepted)
    as (rep & g1 & g2 & g3 & g' & points & Emain & _ & Escen & Ebrk & _).
  exists rep, g1, g2, g3, g'.
  split; [exact Emain|]. split; [exact Escen|exact Ebrk].
Defined.

Lemma breakeven_names_lowest_profitable_rate_witness :
  exists rep g',
    main_app (G := lcg_generator) (F := lcg_sqrt) sample_sidebar 42
      = (Ok rep, g') /\
    Dict.keys (breakeven_results rep) = failure_rate_range /\
    breakeven_tab (df_profit rep) = Ok (tab2 rep).
Proof.
  destruct (breakeven_names_lowest_profitable_rate
              (G := lcg_generator) (F := lcg_sqrt) sample_sidebar 42
              sample_sidebar_accepted)
    as (rep & g' & Emain & Ekeys & _ & _ & _ & Etab & _).
  exists rep, g'.
  split; [exact Emain|]. split; [exact Ekeys|exact Etab].
Defined.

Lemma total_revenue_shared_by_all_scenarios_witness :
  exists rep g',
    main_app (G := lcg_generator) (F := lcg_sqrt) sample_sidebar 42
      = (Ok rep, g') /\
    total_revenue rep = wrap64 (Zsum (trader_accounts rep) * 200 + 2000).
Proof.
  destruct (total_revenue_shared_by_all_scenarios
              (G := lcg_generator) (F := lcg_sqrt) sample_sidebar 42
              sample_sidebar_accepted)
    as (rep & g' & Emain & _ & Erev & _).
  exists rep, g'. split; assumption.
Defined.

Lemma profit_range_is_one_standard_deviation_witness :
  exists rep g',
    main_app (G := lcg_generator) (F := lcg_sqrt) sample_sidebar 42
      = (Ok rep, g') /\
    scenario_tab (total_revenue rep) (simulation_results rep)
                 scenario_failure_rates = Ok (tab1 rep).
Proof.
  destruct (profit_range_is_one_standard_deviation
              (G := lcg_generator) (F := lcg_sqrt) sample_sidebar 42
              sample_sidebar_accepted)
    as (rep & g' & Emain & Etab & _).
  exists rep, g'. split; assumption.
Defined.

(** The run above, evaluated: the population, its revenue, and the rate the
    breakeven tab names. *)
Example sample_run :
  match fst (main_app (G := lcg_generator) (F := lcg_sqrt) sample_sidebar 42) with
  | Ok rep =>
      trader_accounts rep = [5; 5; 15] /\ total_revenue rep = 7000 /\
      Dict.get (simulation_results rep) (90 # 100) = Some [2000; 2000] /\
      tab2 rep = Lowest_profitable (6400 # 10000)
  | Raise _ => False
  end.
Proof. vm_compute. repeat split. Qed.

(** A table whose every estimated profit is negative (a total revenue of
    1,000,000 against mean payouts above it) gives the not-found message,
    and a [nan] profit counts as not profitable. *)
Example breakeven_not_found :
  breakeven_tab [((1 # 100)%Q, Fin (-500000)); ((2 # 100)%Q, Fin (-1));
                 ((3 # 100)%Q, NaN); ((4 # 100)%Q, Fin 0)]
  = Ok No_profitable_rate.
Proof. reflexivity. Qed.

Example breakeven_found :
  breakeven_tab [((1 # 100)%Q, Fin (-5)); ((2 # 100)%Q, Fin 3);
                 ((3 # 100)%Q, Fin (-1)); ((4 # 100)%Q, Fin 7)]
  = Ok (Lowest_profitable (2 # 100)).
Proof. reflexivity. Qed.

(** * Further properties *)

(** ** The engine: bounds, edge cases, composition *)

Section EngineMore.
Context {G : BitGenerator}.
Import DictFacts.

Lemma In_set {V} (d : Dict.t V) (k : Q) (v : V) (k0 : Q) (v0 : V) :
  In (k0, v0) (Dict.set d k v) -> In (k0, v0) d \/ v0 = v.
Proof.
  induction d as [|[k1 v1] d IH]; cbn [Dict.set].
  - intros [E|[]]. right. congruence.
  - destruct (Qeq_bool k1 k); cbn [In].
    + intros [E|H]; [right; congruence|left; now right].
    + intros [E|H]; [left; now left|].
      destruct (IH H) as [H'|H']; [left; now right|now right].
Qed.

Lemma In_set_all {V} (l : list (Q * V)) (d : Dict.t V) (k0 : Q) (v0 : V) :
  In (k0, v0) (set_all l d) -> In (k0, v0) d \/ exists k, In (k, v0) l.
Proof.
  revert d; induction l as [|[k v] l IH]; intros d; [now left|].
  rewrite set_all_cons. intros H.
  destruct (IH _ H) as [H'|(k' & H')].
  - destruct (In_set _ _ _ _ _ H') as [H''| ->]; [now left|].
    right. exists k. now left.
  - right. exists k'. now right.
Qed.

Lemma get_In {V} (d : Dict.t V) (r : Q) (v : V) :
  Dict.get d r = Some v -> exists k, In (k, v) d.
Proof.
  induction d as [|[k1 v1] d IH]; cbn [Dict.get]; [discriminate|].
  destruct (Qeq_bool k1 r).
  - intros E. inversion E; subst. exists k1. now left.
  - intros H. destruct (IH H) as (k & Hk). exists k. now right.
Qed.

Lemma In_drawn pop n payout rates g k v :
  In (k, v) (drawn_batches pop n payout rates g) ->
  In k rates /\ exists g_r, v = batch_at pop n payout k g_r.
Proof.
  revert g; induction rates as [|r rates IH]; intros g; cbn [drawn_batches In].
  - easy.
  - intros [E|H].
    + inversion E; subst. split; [now left|now exists g].
    + destruct (IH _ H) as [H1 H2]. split; [now right|exact H2].
Qed.

(** A batch the engine stores was drawn for one of the rates. *)
Lemma stored_batch pop n payout rates g r batch :
  Dict.get (set_all (drawn_batches pop n payout rates g) Dict.empty) r
  = Some batch ->
  exists k g_r, In k rates /\ batch = batch_at pop n payout k g_r.
Proof.
  intros H. destruct (get_In _ _ _ H) as (k0 & Hin).
  destruct (In_set_all _ _ _ _ Hin) as [[]|(k & Hk)].
  destruct (In_drawn _ _ _ _ _ _ _ Hk) as [H1 (g_r & H2)].
  now exists k, g_r.
Qed.

Lemma length_batch_at pop n payout k g :
  length (batch_at pop n payout k g) = Z.to_nat n.
Proof.
  unfold batch_at, np_scale, np_sum_axis1.
  now rewrite !length_map, draw_rows_length.
Qed.

Lemma batch_at_bounds pop n payout k g :
  valid_rate k = true -> nonneg_all pop = true ->
  0 <= payout -> Zsum pop * payout <= max_int ->
  Forall (fun x => 0 <= x <= Zsum pop * payout) (batch_at pop n payout k g).
Proof.
  intros V P Hpay Hfit. unfold batch_at, np_scale, np_sum_axis1.
  rewrite map_map. apply Forall_map.
  eapply Forall_impl; [|apply draw_rows_rows]. cbn beta.
  intros row [g_i Hrow].
  pose proof (draw_each_binomial_range (1 - k) pop g_i V P) as R.
  rewrite <- Hrow in R. pose proof (Zsum_draws_range _ _ R) as S.
  rewrite mul64_np_sum, wrap64_in_range.
  - nia.
  - unfold in_range, min_int, max_int in *. nia.
Qed.

(** X1. On arguments in the documented domain whose full payout fits in
    64 bits, no replicate pays more than every account succeeding: every
    batch of the result has [n_simulations] entries, each between 0 and
    sum(population) * payout. *)
Theorem payouts_within_full_payout
    (pop : list Z) (n : Z) (rates : list Q) (payout : Z) (g : rng) :
  Forall (fun a => 0 <= a) pop ->
  Forall (fun r => (0 <= r <= 1)%Q) rates ->
  0 <= n -> 0 <= payout -> Zsum pop * payout <= max_int ->
  exists results g',
    run_vectorized_simulation pop n rates payout g = (Ok results, g') /\
    forall r batch,
      Dict.get results r = Some batch ->
      length batch = Z.to_nat n /\
      Forall (fun x => 0 <= x <= Zsum pop * payout) batch.
Proof.
  intros Hpop Hrates Hn Hpay Hfit.
  pose proof (valid_rates_of_closed rates Hrates) as V.
  pose proof (proj2 (nonneg_all_iff pop) Hpop) as P.
  rewrite (run_vectorized_simulation_ok pop n rates payout g V P Hn).
  eexists; eexists; split; [reflexivity|].
  intros r batch Hget.
  destruct (stored_batch _ _ _ _ _ _ _ Hget) as (k & g_r & Hk & ->).
  split; [apply length_batch_at|].
  apply batch_at_bounds; try assumption.
  rewrite forallb_forall in V. now apply V.
Qed.

Lemma draw_rows_nil rows p g :
  draw_rows rows p [] g = (repeat [] rows, g).
Proof.
  induction rows as [|rows IH]; cbn [draw_rows draw_each repeat];
    [reflexivity|].
  now rewrite IH.
Qed.

Lemma state_after_rates_nil n rates g :
  state_after_rates [] n rates g = g.
Proof.
  induction rates as [|r rates IH]; cbn [state_after_rates]; [reflexivity|].
  unfold state_after. now rewrite draw_rows_nil.
Qed.

(** X2. With no trader, the engine draws nothing: for rates the sampler
    accepts and [n_simulations >= 0] it returns, under every rate of the
    list, a batch of [n_simulations] zeros, whatever the payout, and
    leaves the generator as it found it. *)
Theorem empty_population_pays_nothing
    (n : Z) (rates : list Q) (payout : Z) (g : rng) :
  Forall (fun r => (0 <= r <= 1)%Q) rates -> 0 <= n ->
  exists results,
    run_vectorized_simulation [] n rates payout g = (Ok results, g) /\
    forall r, In r rates ->
      Dict.get results r = Some (repeat 0 (Z.to_nat n)).
Proof.
  intros Hrates Hn.
  pose proof (valid_rates_of_closed rates Hrates) as V.
  rewrite (run_vectorized_simulation_ok [] n rates payout g V eq_refl Hn).
  rewrite state_after_rates_nil.
  eexists; split; [reflexivity|].
  intros r Hr.
  destruct (last_occurrence rates r (In_mem _ _ Hr))
    as (pre & r' & post & -> & Hq & Hpost).
  rewrite (get_drawn _ _ _ _ _ _ _ _ Hq Hpost). f_equal.
  unfold batch_at. rewrite draw_rows_nil. cbn [fst].
  unfold np_scale, np_sum_axis1. now rewrite !map_repeat.
Qed.

Lemma draw_each_binomial_never p n g :
  (forall p n g, (p == 0)%Q -> 0 <= n -> fst (random_binomial p n g) = 0) ->
  (p == 0)%Q -> nonneg_all n = true ->
  fst (draw_each (random_binomial p) n g) = map (fun _ => 0) n.
Proof.
  intros H0 Hp Hn. apply nonneg_all_iff in Hn.
  assert (F : Forall2 (fun a x => x = 0) n
                (fst (draw_each (random_binomial p) n g))).
  { apply draw_each_Forall2. eapply Forall_impl; [|exact Hn]. cbn.
    intros a Ha g'. now apply H0. }
  revert F. generalize (fst (draw_each (random_binomial p) n g)).
  clear. intros l F. induction F as [|a x n l E _ IH]; [reflexivity|].
  cbn. now rewrite E, IH.
Qed.

Lemma Zsum_zeros {A} (l : list A) : Zsum (map (fun _ => 0) l) = 0.
Proof. induction l as [|a l IH]; cbn; [reflexivity|exact IH]. Qed.

Lemma draw_rows_never rows p n g :
  (forall p n g, (p == 0)%Q -> 0 <= n -> fst (random_binomial p n g) = 0) ->
  (p == 0)%Q -> nonneg_all n = true ->
  fst (draw_rows rows p n g) = repeat (map (fun _ => 0) n) rows.
Proof.
  intros H0 Hp Hn. revert g; induction rows as [|rows IH]; intros g;
    cbn [draw_rows repeat].
  - reflexivity.
  - pose proof (draw_each_binomial_never p n g H0 Hp Hn) as E.
    destruct (draw_each (random_binomial p) n g) as [r g1]. specialize (IH g1).
    destruct (draw_rows rows p n g1) as [rs g2]. cbn in *. congruence.
Qed.

(** X3. On a generator whose binomial sampler never counts a success when
    the success probability is 0 (NumPy's does not), a failure rate equal
    to 1 gives a batch of [n_simulations] zeros: nothing is paid out. *)
Theorem failure_rate_one_pays_nothing
    (pop : list Z) (n : Z) (rates : list Q) (payout : Z) (g : rng) (r : Q) :
  (forall p n g, (p == 0)%Q -> 0 <= n -> fst (random_binomial p n g) = 0) ->
  Forall (fun a => 0 <= a) pop ->
  Forall (fun r => (0 <= r <= 1)%Q) rates ->
  0 <= n -> In r rates -> (r == 1)%Q ->
  exists results g',
    run_vectorized_simulation pop n rates payout g = (Ok results, g') /\
    Dict.get results r = Some (repeat 0 (Z.to_nat n)).
Proof.
  intros H0 Hpop Hrates Hn Hr H1.
  pose proof (valid_rates_of_closed rates Hrates) as V.
  pose proof (proj2 (nonneg_all_iff pop) Hpop) as P.
  rewrite (run_vectorized_simulation_ok pop n rates payout g V P Hn).
  destruct (last_occurrence rates r (In_mem _ _ Hr))
    as (pre & r' & post & E & Hq & Hpost).
  eexists; eexists. split; [reflexivity|].
  rewrite E, (get_drawn _ _ _ _ _ _ _ _ Hq Hpost). f_equal.
  assert (C : (1 - r' == 0)%Q).
  { apply Qeq_bool_iff in Hq. rewrite Hq, H1. reflexivity. }
  unfold batch_at. rewrite (draw_rows_never _ _ _ _ H0 C P).
  unfold np_scale, np_sum_axis1. rewrite !map_repeat. f_equal.
  now rewrite mul64_np_sum, Zsum_zeros.
Qed.

End EngineMore.

Section EngineComposition.
Context {G : BitGenerator}.
Import DictFacts.

(** What a returning call of the engine returned, and on what. *)
Lemma run_ok_shape pop n rates payout g res g' :
  run_vectorized_simulation pop n rates payout g = (Ok res, g') ->
  res = set_all (drawn_batches pop n payout rates g) Dict.empty /\
  g' = state_after_rates pop n rates g /\
  (rates = [] \/
   (forallb valid_rate rates = true /\ nonneg_all pop = true /\ 0 <= n)).
Proof.
  destruct rates as [|r0 rates0].
  - intros E. injection E as <- <-. auto.
  - set (rates := r0 :: rates0). intros E.
    destruct (nonneg_all pop && (0 <=? n)) eqn:A.
    + apply andb_true_iff in A as [P Hn]. apply Z.leb_le in Hn.
      destruct (forallb valid_rate rates) eqn:V.
      * rewrite (run_vectorized_simulation_ok _ _ _ _ _ V P Hn) in E.
        injection E as <- <-.
        split; [reflexivity|]. split; [reflexivity|]. right. auto.
      * destruct (first_invalid_rate rates V)
          as (pre & bad & post & Es & H1 & H2).
        unfold run_vectorized_simulation in E.
        rewrite Es, (for_each_simulate_raise _ _ _ _ _ _ _ _ H1 H2 P Hn) in E.
        discriminate.
    + unfold run_vectorized_simulation, rates in E.
      rewrite (for_each_simulate_reject _ _ _ _ _ _ _ A) in E. discriminate.
Qed.

Lemma drawn_batches_app pop n payout r1 r2 g :
  drawn_batches pop n payout (r1 ++ r2) g =
  drawn_batches pop n payout r1 g
    ++ drawn_batches pop n payout r2 (state_after_rates pop n r1 g).
Proof.
  revert g; induction r1 as [|r r1 IH]; intros g;
    cbn [app drawn_batches state_after_rates]; [reflexivity|].
  now rewrite IH.
Qed.

Lemma state_after_rates_app pop n r1 r2 g :
  state_after_rates pop n (r1 ++ r2) g =
  state_after_rates pop n r2 (state_after_rates pop n r1 g).
Proof.
  revert g; induction r1 as [|r r1 IH]; intros g;
    cbn [app state_after_rates]; [reflexivity|].
  now rewrite IH.
Qed.

Lemma set_all_app {V} (l1 l2 : list (Q * V)) (d : Dict.t V) :
  set_all (l1 ++ l2) d = set_all l2 (set_all l1 d).
Proof. unfold set_all. apply fold_left_app. Qed.

Lemma set_app_notin {V} (d d' : Dict.t V) (k : Q) (v : V) :
  mem k (Dict.keys d) = false ->
  Dict.set (d ++ d') k v = d ++ Dict.set d' k v.
Proof.
  induction d as [|[k1 v1] d IH]; [reflexivity|].
  unfold mem. cbn [Dict.keys map fst existsb app Dict.set]. intros H.
  apply orb_false_iff in H as [H1 H2]. rewrite H1. f_equal. now apply IH.
Qed.

Lemma set_all_shift {V} (l : list (Q * V)) (d d' : Dict.t V) :
  (forall k v, In (k, v) l -> mem k (Dict.keys d) = false) ->
  set_all l (d ++ d') = d ++ set_all l d'.
Proof.
  revert d'; induction l as [|[k v] l IH]; intros d' H; [reflexivity|].
  rewrite !set_all_cons, set_app_notin by (apply (H k v); now left).
  apply IH. intros k' v' Hin. apply (H k' v'). now right.
Qed.

(** X4. Two consecutive calls of the engine on the same population, the
    second on rates that are not keys of the first result, are one call on
    the concatenated rate list: the same batches, in the same order, and
    the same generator afterwards. *)
Theorem engine_on_concatenated_rates
    (pop : list Z) (n : Z) (rates1 rates2 : list Q) (payout : Z)
    (g g1 g2 : rng) (res1 res2 : Dict.t (list Z)) :
  run_vectorized_simulation pop n rates1 payout g = (Ok res1, g1) ->
  run_vectorized_simulation pop n rates2 payout g1 = (Ok res2, g2) ->
  (forall r, In r rates2 -> mem r (Dict.keys res1) = false) ->
  run_vectorized_simulation pop n (rates1 ++ rates2) payout g
  = (Ok (res1 ++ res2), g2).
Proof.
  intros E1 E2 Hnew.
  destruct (run_ok_shape _ _ _ _ _ _ _ E1) as (R1 & S1 & A1).
  destruct (run_ok_shape _ _ _ _ _ _ _ E2) as (R2 & S2 & A2).
  destruct A1 as [->|(V1 & P & Hn)].
  { cbn in R1, S1. subst. exact E2. }
  destruct A2 as [->|(V2 & _ & _)].
  { cbn in R2, S2. subst res2 g2. rewrite !app_nil_r. exact E1. }
  assert (V : forallb valid_rate (rates1 ++ rates2) = true).
  { rewrite forallb_app, V1, V2. reflexivity. }
  rewrite (run_vectorized_simulation_ok _ _ _ _ _ V P Hn).
  rewrite drawn_batches_app, set_all_app, state_after_rates_app.
  rewrite <- S1, <- R1, <- S2. f_equal. f_equal.
  rewrite <- (app_nil_r res1) at 1.
  rewrite set_all_shift.
  - now rewrite R2.
  - intros k v Hin. apply Hnew.
    now destruct (In_drawn _ _ _ _ _ _ _ Hin).
Qed.

End EngineComposition.

Lemma lcg_binomial_never (p : Q) (n g : Z) :
  (p == 0)%Q -> 0 <= n ->
  fst (random_binomial (BitGenerator := lcg_generator) p n g) = 0.
Proof.
  intros Hp _. cbn [random_binomial lcg_generator]. unfold Lcg.binomial.
  generalize (Z.to_nat n). clear n. intros n. revert g.
  induction n as [|n IH]; intros g; [reflexivity|].
  cbn [Lcg.trials]. specialize (IH (Lcg.next g)).
  destruct (Lcg.trials n p (Lcg.next g)) as [k g2]. cbn [fst] in *.
  assert (E : Qle_bool p (Lcg.uniform (Lcg.next g)) = true).
  { apply Qle_bool_iff. rewrite Hp. unfold Lcg.uniform, Qle. cbn [Qnum Qden].
    rewrite Z.mul_0_l, Z.mul_1_r.
    apply Z.mod_pos_bound. reflexivity. }
  rewrite E. lia.
Defined.

Lemma payouts_within_full_payout_witness :
  exists results g',
    run_vectorized_simulation (G := lcg_generator)
      [2; 3] 2 [1 # 2; 1 # 4]%Q 10 42 = (Ok results, g') /\
    forall r batch,
      Dict.get results r = Some batch ->
      length batch = 2%nat /\ Forall (fun x => 0 <= x <= 50) batch.
Proof.
  apply (payouts_within_full_payout (G := lcg_generator)
           [2; 3] 2 [1 # 2; 1 # 4]%Q 10 42).
  - repeat constructor; lia.
  - repeat constructor; cbv; discriminate.
  - lia.
  - lia.
  - cbv; discriminate.
Defined.

Lemma empty_population_pays_nothing_witness :
  exists results,
    run_vectorized_simulation (G := lcg_generator)
      [] 3 [1 # 2; 1 # 4]%Q 10 42 = (Ok results, 42) /\
    forall r, In r [1 # 2; 1 # 4]%Q ->
      Dict.get results r = Some [0; 0; 0].
Proof.
  apply (empty_population_pays_nothing (G := lcg_generator)
           3 [1 # 2; 1 # 4]%Q 10 42).
  - repeat constructor; cbv; discriminate.
  - lia.
Defined.

Lemma failure_rate_one_pays_nothing_witness :
  exists results g',
    run_vectorized_simulation (G := lcg_generator)
      [2; 3] 2 [1 # 2; 1]%Q 10 42 = (Ok results, g') /\
    Dict.get results 1%Q = Some [0; 0].
Proof.
  apply (failure_rate_one_pays_nothing (G := lcg_generator)
           [2; 3] 2 [1 # 2; 1]%Q 10 42 1%Q).
  - exact lcg_binomial_never.
  - repeat constructor; lia.
  - repeat constructor; cbv; discriminate.
  - lia.
  - right; left; reflexivity.
  - reflexivity.
Defined.

Lemma engine_on_concatenated_rates_witness :
  run_vectorized_simulation (G := lcg_generator)
    [2; 3] 2 ([1 # 2] ++ [1 # 4])%Q 10 42
  = (Ok ([((1 # 2)%Q, [20; 20])] ++ [((1 # 4)%Q, [40; 50])]), 1440974758).
Proof.
  apply (engine_on_concatenated_rates (G := lcg_generator)
           [2; 3] 2 [1 # 2]%Q [1 # 4]%Q 10 42 1535244752 1440974758).
  - vm_compute. reflexivity.
  - vm_compute. reflexivity.
  - intros r [<-|[]]. vm_compute. reflexivity.
Defined.

(** ** The population *)

Section PopulationMore.
Context {G : BitGenerator}.

Lemma Zsum_bounds (lo hi : Z) (pop : list Z) :
  Forall (fun a => lo <= a <= hi) pop ->
  lo * Z.of_nat (length pop) <= Zsum pop <= hi * Z.of_nat (length pop).
Proof.
  induction 1 as [|a pop Ha _ IH]; [cbn; lia|].
  change (Zsum (a :: pop)) with (a + Zsum pop).
  cbn [length]. lia.
Qed.

Lemma Forall_same_repeat (c : Z) (pop : list Z) :
  Forall (fun a => c <= a <= c) pop -> pop = repeat c (length pop).
Proof.
  induction 1 as [|a pop Ha _ IH]; [reflexivity|].
  cbn [length repeat]. f_equal; [lia|exact IH].
Qed.

(** X5. In randomized mode with a range [lo, hi] of 64-bit integers,
    [lo <= hi], and a non-negative trader count, the population has one entry per trader and
    both ends of the range are possible values and bounds: every count lies
    in [lo, hi].  Hence the total number of accounts lies between
    lo * traders and hi * traders, also as the 64-bit sum the application
    computes when those bounds fit in 64 bits, and a range with equal ends
    gives every trader exactly that many accounts. *)
Theorem randomized_population_within_range
    (lo hi num_traders : Z) (g : rng) :
  mode_representable (Randomized (lo, hi)) ->
  0 <= num_traders -> lo <= hi ->
  exists pop g',
    generate_trader_accounts (Randomized (lo, hi)) num_traders g
      = (Ok pop, g') /\
    length pop = Z.to_nat num_traders /\
    Forall (fun a => lo <= a <= hi) pop /\
    lo * num_traders <= Zsum pop <= hi * num_traders /\
    (min_int <= lo * num_traders -> hi * num_traders <= max_int ->
     lo * num_traders <= np_sum pop <= hi * num_traders) /\
    (lo = hi -> pop = repeat lo (Z.to_nat num_traders)).
Proof.
  intros _ Ht Hr. cbn [generate_trader_accounts fst snd].
  destruct (np_random_randint_ok lo (hi + 1) num_traders g)
    as (pop & g' & E & _ & L & N); try lia.
  assert (N' : Forall (fun a => lo <= a <= hi) pop).
  { eapply Forall_impl; [|exact N]. cbn. lia. }
  pose proof (Zsum_bounds lo hi pop N') as B.
  rewrite L, Z2Nat.id in B by lia.
  exists pop, g'. split; [exact E|]. split; [exact L|]. split; [exact N'|].
  split; [exact B|]. split.
  - intros H1 H2. rewrite np_sum_wrap, wrap64_in_range; [exact B|].
    unfold in_range. lia.
  - intros <-. rewrite <- L. now apply Forall_same_repeat.
Qed.


End PopulationMore.


Lemma randomized_population_within_range_witness :
  exists pop g',
    generate_trader_accounts (G := lcg_generator) (Randomized (5, 15)) 4 42
      = (Ok pop, g') /\
    length pop = 4%nat /\
    Forall (fun a => 5 <= a <= 15) pop /\
    20 <= Zsum pop <= 60.
Proof.
  destruct (randomized_population_within_range (G := lcg_generator) 5 15 4 42)
    as (pop & g' & E & L & N & B & _).
  - cbv. intuition discriminate.
  - lia.
  - lia.
  - exists pop, g'. repeat split; assumption || apply B.
Defined.

(** ** The risk sweeps: the table and the refusals *)

Section SweepMore.
Context {G : BitGenerator} {F : FloatSqrt}.
Import DictFacts.

Lemma map_flat_map {A B C} (f : B -> C) (h : A -> list B) (l : list A) :
  map f (flat_map h l) = flat_map (fun x => map f (h x)) l.
Proof.
  induction l as [|a l IH]; cbn; [reflexivity|]. now rewrite map_app, IH.
Qed.

Lemma axis_column (pt : sweep_point) :
  map axis_value (rows_of_point pt) =
  repeat (point_axis pt) (length (Dict.keys (point_results pt))).
Proof.
  unfold rows_of_point, risk_rows, Dict.items, Dict.keys.
  rewrite map_map, length_map.
  induction (point_results pt) as [|[r b] d IH]; cbn; [reflexivity|].
  now rewrite IH.
Qed.

Lemma label_column (pt : sweep_point) :
  map risk_failure_rate (rows_of_point pt) =
  map percent_label (Dict.keys (point_results pt)).
Proof.
  unfold rows_of_point, risk_rows, Dict.items, Dict.keys.
  rewrite !map_map. apply map_ext. now intros [r b].
Qed.

Lemma sweep_columns (P : sweep_point -> Prop) (points : list sweep_point)
    (rates : list Q) :
  Forall (fun pt => P pt /\ Dict.keys (point_results pt) = distinct rates)
         points ->
  map axis_value (flat_map rows_of_point points) =
    flat_map (fun a => repeat a (length (distinct rates)))
             (map point_axis points) /\
  map risk_failure_rate (flat_map rows_of_point points) =
    concat (repeat (map percent_label (distinct rates)) (length points)).
Proof.
  induction 1 as [|pt points [_ K] _ [IH1 IH2]]; [split; reflexivity|].
  cbn [flat_map map length repeat concat]. rewrite !map_app, IH1, IH2.
  now rewrite axis_column, label_column, K.
Qed.

Lemma length_flat_map_repeat {A} (k : nat) (l : list A) :
  length (flat_map (fun a => repeat a k) l) = (length l * k)%nat.
Proof.
  induction l as [|a l IH]; cbn [flat_map length]; [reflexivity|].
  rewrite length_app, repeat_length, IH. lia.
Qed.

(** X7. On arguments the samplers accept, the table of the
    average-accounts sweep has 20 rows per distinct rate and that of the
    range-width sweep 19: the axis column runs through 1, ..., 20 (resp.
    2, ..., 20), each value once per distinct rate, and the failure-rate
    column repeats, for every axis value, the labels of the distinct rates
    in order of first occurrence.  With an empty rate list the table is
    empty. *)
Theorem risk_tables_columns
    (num_traders n : Z) (rates : list Q) (payout : Z) (g : rng) :
  0 <= num_traders -> 0 <= n -> Forall (fun r => (0 <= r <= 1)%Q) rates ->
  (exists rows g',
      run_risk_analysis num_traders n rates payout g = (Ok rows, g') /\
      length rows = (20 * length (distinct rates))%nat /\
      map axis_value rows =
        flat_map (fun a => repeat a (length (distinct rates)))
                 (py_range 1 21) /\
      map risk_failure_rate rows =
        concat (repeat (map percent_label (distinct rates)) 20)) /\
  (exists rows g',
      run_randomized_risk_analysis num_traders n rates payout g
        = (Ok rows, g') /\
      length rows = (19 * length (distinct rates))%nat /\
      map axis_value rows =
        flat_map (fun a => repeat a (length (distinct rates)))
                 (py_range 2 21) /\
      map risk_failure_rate rows =
        concat (repeat (map percent_label (distinct rates)) 19)).
Proof.
  intros Ht Hn Hrates. split.
  - destruct (run_risk_analysis_chain num_traders n rates payout g Ht Hn Hrates)
      as (points & g' & E & _ & A & K).
    destruct (sweep_columns _ _ _ K) as [C1 C2].
    assert (L : length points = 20%nat).
    { rewrite <- (length_map point_axis), A. reflexivity. }
    rewrite A in C1. rewrite L in C2.
    exists (flat_map rows_of_point points), g'.
    split; [exact E|]. split; [|split; [exact C1|exact C2]].
    rewrite <- (length_map axis_value), C1, length_flat_map_repeat.
    reflexivity.
  - destruct (run_randomized_risk_analysis_chain num_traders n rates payout g
                Ht Hn Hrates) as (points & g' & E & _ & A & K).
    destruct (sweep_columns _ _ _ K) as [C1 C2].
    assert (L : length points = 19%nat).
    { rewrite <- (length_map point_axis), A. reflexivity. }
    rewrite A in C1. rewrite L in C2.
    exists (flat_map rows_of_point points), g'.
    split; [exact E|]. split; [|split; [exact C1|exact C2]].
    rewrite <- (length_map axis_value), C1, length_flat_map_repeat.
    reflexivity.
Qed.

Lemma run_raises pop n rates payout g :
  engine_accepts pop n rates = false ->
  exists g', run_vectorized_simulation pop n rates payout g
             = (Raise ValueError, g').
Proof.
  destruct rates as [|r0 rates0]; [discriminate|].
  set (rates := r0 :: rates0). unfold engine_accepts. fold rates.
  change (match rates with [] => true | _ :: _ =>
            forallb valid_rate rates && nonneg_all pop && (0 <=? n) end)
    with (forallb valid_rate rates && nonneg_all pop && (0 <=? n)).
  intros A. destruct (nonneg_all pop && (0 <=? n)) eqn:B.
  - rewrite <- andb_assoc, B, andb_true_r in A.
    apply andb_true_iff in B as [P Hn]. apply Z.leb_le in Hn.
    destruct (first_invalid_rate rates A) as (pre & bad & post & Es & H1 & H2).
    unfold run_vectorized_simulation. rewrite Es.
    rewrite (for_each_simulate_raise _ _ _ _ _ _ _ _ H1 H2 P Hn). eauto.
  - unfold run_vectorized_simulation, rates.
    rewrite (for_each_simulate_reject _ _ _ _ _ _ _ B). eauto.
Qed.

Lemma engine_accepts_nonneg pop n rates :
  nonneg_all pop = true ->
  engine_accepts pop n rates = engine_accepts [] n rates.
Proof.
  intros P. unfold engine_accepts. destruct rates; [reflexivity|].
  now rewrite P.
Qed.

(** X8. Neither sweep returns a partial table.  With a negative trader
    count both raise [ValueError] at the first axis value, before anything
    is drawn; with a non-negative trader count and a rate list or replicate
    count that the engine refuses, both raise [ValueError] at the first
    axis value, after its population has been drawn. *)
Theorem risk_sweeps_refusals
    (num_traders n : Z) (rates : list Q) (payout : Z) (g : rng) :
  num_traders < 0 \/ engine_accepts [] n rates = false ->
  fst (run_risk_analysis num_traders n rates payout g) = Raise ValueError /\
  fst (run_randomized_risk_analysis num_traders n rates payout g)
  = Raise ValueError /\
  (num_traders < 0 ->
   run_risk_analysis num_traders n rates payout g = (Raise ValueError, g) /\
   run_randomized_risk_analysis num_traders n rates payout g
   = (Raise ValueError, g)).
Proof.
  intros H.
  assert (Neg : num_traders < 0 ->
    run_risk_analysis num_traders n rates payout g = (Raise ValueError, g) /\
    run_randomized_risk_analysis num_traders n rates payout g
    = (Raise ValueError, g)).
  { intros Ht. assert (X : (num_traders <? 0) = true) by (apply Z.ltb_lt; lia).
    split.
    - unfold run_risk_analysis. change (py_range 1 21) with (1 :: py_range 2 21).
      cbn [for_each]. unfold bind at 1. unfold bind at 1.
      unfold np_random_poisson. cbn [Z.ltb Z.compare]. now rewrite X.
    - unfold run_randomized_risk_analysis.
      change (py_range 2 21) with (2 :: py_range 3 21).
      cbn [for_each]. unfold bind at 1. unfold bind at 1.
      unfold np_random_randint. cbn [Z.leb Z.add Z.compare Pos.add Pos.compare
                                       Pos.compare_cont Pos.succ].
      now rewrite X. }
  destruct (Z.lt_ge_cases num_traders 0) as [Ht|Ht].
  { destruct (Neg Ht) as [E1 E2]. rewrite E1, E2. auto. }
  destruct H as [H|H]; [lia|].
  split; [|split; [|exact Neg]].
  - unfold run_risk_analysis. change (py_range 1 21) with (1 :: py_range 2 21).
    cbn [for_each]. unfold bind at 1. unfold bind at 1.
    destruct (np_random_poisson_ok 1 num_traders g ltac:(lia) Ht)
      as (pop & g1 & E & _ & _ & N).
    rewrite E. unfold bind at 1.
    destruct (run_raises pop n rates payout g1) as (g2 & R).
    { rewrite engine_accepts_nonneg; [exact H|]. now apply nonneg_all_iff. }
    now rewrite R.
  - unfold run_randomized_risk_analysis.
    change (py_range 2 21) with (2 :: py_range 3 21).
    cbn [for_each]. unfold bind at 1. unfold bind at 1.
    destruct (np_random_randint_ok 1 (2 + 1) num_traders g ltac:(lia) Ht)
      as (pop & g1 & E & _ & _ & N).
    rewrite E. unfold bind at 1.
    destruct (run_raises pop n rates payout g1) as (g2 & R).
    { rewrite engine_accepts_nonneg; [exact H|]. apply nonneg_all_iff.
      eapply Forall_impl; [|exact N]. cbn. lia. }
    now rewrite R.
Qed.

End SweepMore.

Lemma risk_tables_columns_witness :
  (exists rows g',
      run_risk_analysis (G := lcg_generator) (F := lcg_sqrt)
        2 1 [1 # 2; 1 # 4; 2 # 4]%Q 10 42 = (Ok rows, g') /\
      length rows = 40%nat) /\
  (exists rows g',
      run_randomized_risk_analysis (G := lcg_generator) (F := lcg_sqrt)
        2 1 [1 # 2; 1 # 4; 2 # 4]%Q 10 42 = (Ok rows, g') /\
      length rows = 38%nat).
Proof.
  destruct (risk_tables_columns (G := lcg_generator) (F := lcg_sqrt)
              2 1 [1 # 2; 1 # 4; 2 # 4]%Q 10 42)
    as [(r1 & g1 & E1 & L1 & _) (r2 & g2 & E2 & L2 & _)].
  - lia.
  - lia.
  - repeat constructor; cbv; discriminate.
  - split; [exists r1, g1|exists r2, g2]; split; assumption.
Defined.

Lemma risk_sweeps_refusals_witness :
  fst (run_risk_analysis (G := lcg_generator) (F := lcg_sqrt)
         2 1 [1 # 2; 3 # 2]%Q 10 42) = Raise ValueError /\
  fst (run_randomized_risk_analysis (G := lcg_generator) (F := lcg_sqrt)
         2 1 [1 # 2; 3 # 2]%Q 10 42) = Raise ValueError.
Proof.
  destruct (risk_sweeps_refusals (G := lcg_generator) (F := lcg_sqrt)
              2 1 [1 # 2; 3 # 2]%Q 10 42) as (E1 & E2 & _).
  - right. reflexivity.
  - split; assumption.
Defined.

(** ** The financial derivations: bounds *)

Section FinanceMore.
Context {G : BitGenerator} {F : FloatSqrt}.
Import DictFacts Derivations.

Lemma Qsum_inject (xs : list Z) :
  (Qsum (map inject_Z xs) == inject_Z (Zsum xs))%Q.
Proof.
  induction xs as [|x xs IH]; [reflexivity|].
  change (Zsum (x :: xs)) with (x + Zsum xs).
  cbn [map Qsum fold_right]. fold (Qsum (map inject_Z xs)).
  now rewrite IH, inject_Z_plus.
Qed.

(** The mean of a non-empty array lies between any bounds of its
    entries. *)
Lemma np_mean_bounds (lo hi : Z) (xs : list Z) :
  xs <> [] -> Forall (fun x => lo <= x <= hi) xs ->
  exists m, np_mean xs = Fin m /\ (inject_Z lo <= m <= inject_Z hi)%Q.
Proof.
  intros Hne Hall. pose proof (Zsum_bounds lo hi xs Hall) as [B1 B2].
  destruct xs as [|x xs']; [congruence|]. set (xs := x :: xs') in *.
  eexists. split; [reflexivity|].
  assert (Lpos : (0 < inject_Z (Z.of_nat (length xs)))%Q).
  { change 0%Q with (inject_Z 0). rewrite <- Zlt_Qlt. cbn [xs length]. lia. }
  split.
  - apply Qle_shift_div_l; [exact Lpos|].
    rewrite Qsum_inject, <- inject_Z_mult, <- Zle_Qle. exact B1.
  - apply Qle_shift_div_r; [exact Lpos|].
    rewrite Qsum_inject, <- inject_Z_mult, <- Zle_Qle. exact B2.
Qed.

(** X9. On arguments in the documented domain whose full payout fits in
    64 bits, the mean of every batch lies between 0 and
    sum(population) * payout, so the estimated profit of a scenario is a
    number between revenue - sum(population) * payout and the revenue. *)
Theorem estimated_profit_within_bounds
    (pop : list Z) (n : Z) (rates : list Q) (payout : Z) (g : rng) :
  Forall (fun a => 0 <= a) pop ->
  Forall (fun r => (0 <= r <= 1)%Q) rates ->
  1 <= n -> 0 <= payout -> Zsum pop * payout <= max_int ->
  exists results g',
    run_vectorized_simulation pop n rates payout g = (Ok results, g') /\
    forall r batch total_revenue,
      Dict.get results r = Some batch ->
      exists mean profit,
        np_mean batch = Fin mean /\
        (0 <= mean <= inject_Z (Zsum pop * payout))%Q /\
        fsub (of_int64 total_revenue) (np_mean batch) = Fin profit /\
        (inject_Z total_revenue - inject_Z (Zsum pop * payout) <= profit
         <= inject_Z total_revenue)%Q.
Proof.
  intros Hpop Hrates Hn Hpay Hfit.
  pose proof (valid_rates_of_closed rates Hrates) as V.
  pose proof (proj2 (nonneg_all_iff pop) Hpop) as P.
  rewrite (run_vectorized_simulation_ok pop n rates payout g V P) by lia.
  eexists; eexists; split; [reflexivity|].
  intros r batch tr Hget.
  destruct (stored_batch _ _ _ _ _ _ _ Hget) as (k & g_r & Hk & ->).
  assert (Vk : valid_rate k = true) by (rewrite forallb_forall in V; now apply V).
  destruct (np_mean_bounds 0 (Zsum pop * payout)
              (batch_at pop n payout k g_r)) as (m & Em & B1 & B2).
  - intros E. pose proof (length_batch_at pop n payout k g_r) as L.
    rewrite E in L. cbn in L. lia.
  - now apply batch_at_bounds.
  - exists m, (inject_Z tr - m)%Q. rewrite Em.
    split; [reflexivity|]. split; [split; assumption|].
    split; [reflexivity|]. change (inject_Z 0) with 0%Q in B1. split; lra.
Qed.

(** X10. The scenario tab on a rate the dictionary holds.  When the batch
    is not empty every figure is a number, the standard deviation is not
    negative, and the reported range brackets the estimated profit: its
    lower end is never above the estimate and its upper end never below.
    When the batch is empty every figure of the scenario is [nan]. *)
Theorem profit_range_brackets_estimate
    (total_revenue : Z) (results : Dict.t (list Z)) (rate : Q)
    (payouts : list Z) :
  Dict.get results rate = Some payouts ->
  exists m,
    scenario_metrics_of total_revenue results rate = Ok m /\
    match payouts with
    | [] =>
        mean_payout m = NaN /\ std_payout m = NaN /\
        estimated_net_profit m = NaN /\
        profit_minus_1_std m = NaN /\ profit_plus_1_std m = NaN
    | _ :: _ =>
        exists estimate sd low high,
          estimated_net_profit m = Fin estimate /\
          std_payout m = Fin sd /\
          profit_minus_1_std m = Fin low /\
          profit_plus_1_std m = Fin high /\
          (0 <= sd)%Q /\
          (low <= estimate <= high)%Q
    end.
Proof.
  intros Hget. unfold scenario_metrics_of. rewrite Hget.
  eexists. split; [reflexivity|].
  destruct payouts as [|x xs]; [cbn; auto|].
  set (xs' := x :: xs).
  cbn [estimated_net_profit std_payout profit_minus_1_std profit_plus_1_std].
  unfold np_std. change (np_mean xs') with
    (Fin (Qsum (map inject_Z xs') / inject_Z (Z.of_nat (length xs')))).
  cbn [fsub fadd of_int64].
  set (mean := (Qsum (map inject_Z xs') / inject_Z (Z.of_nat (length xs')))%Q).
  set (sd := np_sqrt _).
  pose proof (np_sqrt_nonneg
                (Qsum (map (fun x => ((inject_Z x - mean) * (inject_Z x - mean))%Q)
                           xs')
                 / inject_Z (Z.of_nat (length xs')))) as Hsd.
  fold sd in Hsd.
  exists (inject_Z total_revenue - mean)%Q, sd,
         (inject_Z total_revenue - (mean + sd))%Q,
         (inject_Z total_revenue - (mean - sd))%Q.
  repeat split; try reflexivity; try exact Hsd; lra.
Qed.

(** X13. The scenario tab raises only [KeyError], and exactly when the
    dictionary lacks one of the rates it is asked to show; otherwise it
    returns one record per rate, in the order of the rates. *)
Theorem scenario_tab_raises_on_missing_rate
    (total_revenue : Z) (results : Dict.t (list Z)) (rates : list Q) :
  match scenario_tab total_revenue results rates with
  | Ok ms =>
      map scenario_rate ms = rates /\
      forall r, In r rates -> Dict.get results r <> None
  | Raise e =>
      e = KeyError /\ exists r, In r rates /\ Dict.get results r = None
  end.
Proof.
  induction rates as [|r rates IH]; cbn [scenario_tab].
  - split; [reflexivity|]. intros r [].
  - unfold scenario_metrics_of.
    destruct (Dict.get results r) as [payouts|] eqn:Hget.
    + destruct (scenario_tab total_revenue results rates) as [ms|e].
      * destruct IH as [IH1 IH2]. split; [cbn; now rewrite IH1|].
        intros r' [<-|Hr']; [congruence|now apply IH2].
      * destruct IH as [-> (r' & H1 & H2)]. split; [reflexivity|].
        exists r'. split; [now right|exact H2].
    + split; [reflexivity|]. exists r. split; [now left|exact Hget].
Qed.

End FinanceMore.

(** ** The application: the scenario table and the breakeven extremes *)

Section ApplicationMore.
Context {G : BitGenerator} {F : FloatSqrt}.
Import DictFacts Derivations.

Lemma mem_false_In (k k' : Q) (ks : list Q) :
  mem k ks = false -> In k' ks -> Qeq_bool k' k = false.
Proof.
  unfold mem. induction ks as [|x ks IH]; cbn [existsb In]; [easy|].
  intros H [<-|Hin]; apply orb_false_iff in H as [H1 H2]; auto.
Qed.

Lemma set_all_no_repetition {V} (l : list (Q * V)) :
  no_repetition (map fst l) = true -> set_all l Dict.empty = l.
Proof.
  induction l as [|[k v] l IH]; [reflexivity|].
  cbn [map fst no_repetition]. intros H.
  apply andb_true_iff in H as [Hk Hl]. apply negb_true_iff in Hk.
  rewrite set_all_cons. change (Dict.set Dict.empty k v) with ([(k, v)] ++ []).
  rewrite set_all_shift.
  - cbn [app]. f_equal. now apply IH.
  - intros k' v' Hin. unfold mem. cbn [Dict.keys map fst existsb].
    rewrite orb_false_r, Qeq_bool_sym.
    apply (mem_false_In _ _ _ Hk). apply in_map_iff. now exists (k', v').
Qed.

Lemma scenario_labels (tr : Z) (d : Dict.t (list Z)) :
  map failure_rate_scenario (all_scenarios_data tr d) =
  flat_map (fun kv => repeat (percent_label (fst kv)) (length (snd kv))) d.
Proof.
  unfold all_scenarios_data, Dict.items. rewrite map_flat_map.
  apply flat_map_ext. intros [rate payouts]. cbn [fst snd].
  rewrite map_map. cbn [failure_rate_scenario].
  induction payouts as [|x xs IH]; cbn; [reflexivity|]. now rewrite IH.
Qed.

Lemma scenario_payouts (tr : Z) (d : Dict.t (list Z)) :
  map simulated_payout (all_scenarios_data tr d) = concat (map snd d).
Proof.
  unfold all_scenarios_data, Dict.items. rewrite map_flat_map.
  rewrite flat_map_concat_map. f_equal. apply map_ext.
  intros [rate payouts]. cbn [snd]. rewrite map_map. cbn [simulated_payout].
  apply map_id.
Qed.

Lemma drawn_labels pop n payout rates g :
  flat_map (fun kv => repeat (percent_label (fst kv)) (length (snd kv)))
           (drawn_batches pop n payout rates g) =
  flat_map (fun l => repeat l (Z.to_nat n)) (map percent_label rates).
Proof.
  revert g; induction rates as [|r rates IH]; intros g;
    cbn [drawn_batches flat_map map fst snd]; [reflexivity|].
  now rewrite IH, length_batch_at.
Qed.

(** X11. On sidebar values no sampler refuses, the raw scenario table has
    [n_simulations] rows for each of the five scenarios, labelled 90%, 85%,
    80%, 75% and 50% in that order; its payout column is the five batches
    one after the other, and in every row payout and profit add up, in
    64-bit arithmetic, to the total revenue. *)
Theorem scenario_table_rows (ui : sidebar) (g : rng) :
  sidebar_accepted ui ->
  exists rep g',
    main_app ui g = (Ok rep, g') /\
    length (df_all_scenarios rep) = (5 * Z.to_nat (n_simulations ui))%nat /\
    map failure_rate_scenario (df_all_scenarios rep) =
      flat_map (fun l => repeat l (Z.to_nat (n_simulations ui)))
               ["90%"; "85%"; "80%"; "75%"; "50%"]%string /\
    map simulated_payout (df_all_scenarios rep) =
      concat (map snd (Dict.items (simulation_results rep))) /\
    Forall (fun row =>
              add64 (associated_profit row) (simulated_payout row)
              = total_revenue rep)
           (df_all_scenarios rep).
Proof.
  intros Hui.
  destruct (main_app_ok ui g Hui)
    as (rep & g1 & g2 & g3 & g' & points & Emain & _ & _ & Escen & _
        & _ & _ & Eacc & Erev & Etable & _).
  exists rep, g'. split; [exact Emain|].
  destruct (run_ok_shape _ _ _ _ _ _ _ Escen) as (R & _ & _).
  rewrite set_all_no_repetition in R
    by (rewrite map_fst_drawn_batches; reflexivity).
  assert (Labels :
    map failure_rate_scenario (df_all_scenarios rep) =
    flat_map (fun l => repeat l (Z.to_nat (n_simulations ui)))
             ["90%"; "85%"; "80%"; "75%"; "50%"]%string).
  { rewrite Etable, scenario_labels, R, drawn_labels. reflexivity. }
  split.
  { rewrite <- (length_map failure_rate_scenario), Labels.
    now rewrite length_flat_map_repeat. }
  split; [exact Labels|].
  split; [rewrite Etable; apply scenario_payouts|].
  rewrite Etable. eapply Forall_impl; [|apply all_scenarios_use_revenue].
  cbn beta. intros row ->. unfold add64, sub64.
  rewrite wrap64_add_l.
  replace (total_revenue rep - simulated_payout row + simulated_payout row)
    with (total_revenue rep) by lia.
  apply wrap64_in_range. rewrite Erev. unfold compute_total_revenue, add64.
  apply wrap64_range.
Qed.





End ApplicationMore.

(** ** The login gate *)

Section LoginFacts.
Variable lower : string -> string.

(** X14. The form logs a session in only on a submitted form whose typed
    password equals the stored password of the entry found under the
    lowercased typed user name; a form that returns (shown only, or with
    the error message) leaves the session state as it was; and matching
    credentials of an entry that has a name end in [st.rerun()] with the
    session logged in under the lowercased user name and that name. *)
Theorem login_requires_matching_password
    (sec : secrets) (inp : form_input) (st : session_state) :
  logged_in st = false ->
  (logged_in (snd (show_login_form lower sec inp st)) = true ->
   submitted inp = true /\
   exists usernames entry,
     sec = Some (Some usernames) /\
     lookup_user (lower (typed_username inp)) usernames = Some entry /\
     entry_password entry = Some (typed_password inp)) /\
  (fst (show_login_form lower sec inp st) = Form_shown \/
   fst (show_login_form lower sec inp st) = Invalid_username_or_password ->
   snd (show_login_form lower sec inp st) = st) /\
  (forall usernames entry name,
      submitted inp = true ->
      sec = Some (Some usernames) ->
      lookup_user (lower (typed_username inp)) usernames = Some entry ->
      entry_password entry = Some (typed_password inp) ->
      entry_name entry = Some name ->
      show_login_form lower sec inp st =
      (Rerun, {| logged_in := true;
                 session_username := Some (lower (typed_username inp));
                 session_name := Some name |})).
Proof.
  intros Hout. unfold show_login_form. split; [|split].
  - destruct (submitted inp); [|cbn; congruence].
    destruct sec as [[usernames|]|]; try (cbn; congruence).
    destruct (lookup_user (lower (typed_username inp)) usernames)
      as [entry|] eqn:L; [|cbn; congruence].
    destruct (entry_password entry) as [stored|] eqn:P; [|cbn; congruence].
    destruct (String.eqb (typed_password inp) stored) eqn:E;
      [|cbn; congruence].
    apply String.eqb_eq in E. subst stored. intros _.
    split; [reflexivity|]. now exists usernames, entry.
  - destruct (submitted inp); [|reflexivity].
    destruct sec as [[usernames|]|]; try reflexivity.
    destruct (lookup_user (lower (typed_username inp)) usernames)
      as [entry|]; [|reflexivity].
    destruct (entry_password entry) as [stored|]; [|reflexivity].
    destruct (String.eqb (typed_password inp) stored); [|reflexivity].
    destruct (entry_name entry); cbn; intros [H|H]; discriminate.
  - intros usernames entry name -> -> L P N.
    now rewrite L, P, String.eqb_refl, N.
Qed.

(** X15. A user entry whose password matches but which has no [name] key
    makes the form fail with a [KeyError] after the session was marked as
    logged in: the error is raised, and every later run of the script
    passes the gate. *)
Theorem missing_name_still_logs_in
    (usernames : list (string * user_entry)) (entry : user_entry)
    (inp : form_input) (st : session_state) :
  logged_in st = false ->
  submitted inp = true ->
  lookup_user (lower (typed_username inp)) usernames = Some entry ->
  entry_password entry = Some (typed_password inp) ->
  entry_name entry = None ->
  exists st',
    check_login lower (Some (Some usernames)) inp st = (inr Missing_key, st') /\
    logged_in st' = true /\
    session_username st' = Some (lower (typed_username inp)) /\
    session_name st' = session_name st /\
    forall sec' inp', check_login lower sec' inp' st' = (inl true, st').
Proof.
  intros Hout Hsub L P N. unfold check_login, show_login_form.
  rewrite Hout, Hsub, L, P, String.eqb_refl, N. cbn [negb].
  eexists. split; [reflexivity|]. cbn. auto.
Qed.

(** X16. The routing.  A run that starts with the session logged out never
    runs [main_app]: it returns no report and draws nothing, also when the
    credentials typed in that run are right.  A run that starts logged in
    runs [main_app] and keeps the session; and no sequence of runs logs a
    session out. *)
Theorem application_runs_only_when_logged_in
    {G : BitGenerator} {F : FloatSqrt}
    (sec : secrets) (inp : form_input) (ui : sidebar) (st : session_state)
    (g : rng) :
  if logged_in st
  then script lower sec inp ui st g
       = (Some (fst (main_app ui g)), st, snd (main_app ui g)) /\
       forall inputs, session_after lower sec inputs st = st
  else script lower sec inp ui st g
       = (None, snd (check_login lower sec inp st), g).
Proof.
  destruct (logged_in st) eqn:E.
  - split.
    + unfold script, check_login. rewrite E. cbn [negb].
      now destruct (main_app ui g).
    + intros inputs. induction inputs as [|i inputs IH]; [reflexivity|].
      cbn [session_after]. unfold check_login at 1. rewrite E. cbn [negb snd].
      exact IH.
  - unfold script, check_login. rewrite E. cbn [negb].
    destruct (show_login_form lower sec inp st) as [[] st']; reflexivity.
Qed.

End LoginFacts.

(** *** The further properties on the reference generator and a sample
    secrets table *)

Definition sample_usernames : list (string * user_entry) :=
  [("alice"%string,
    {| entry_password := Some "wonder"%string;
       entry_name := Some "Alice"%string |});
   ("bob"%string,
    {| entry_password := Some "builder"%string; entry_name := None |})].

Definition logged_out : session_state :=
  {| logged_in := false; session_username := None; session_name := None |}.

Lemma login_requires_matching_password_witness :
  show_login_form str_lower (Some (Some sample_usernames))
    {| typed_username := "Alice"; typed_password := "wonder";
       submitted := true |} logged_out
  = (Rerun, {| logged_in := true;
               session_username := Some "alice"%string;
               session_name := Some "Alice"%string |}).
Proof.
  destruct (login_requires_matching_password str_lower
              (Some (Some sample_usernames))
              {| typed_username := "Alice"; typed_password := "wonder";
                 submitted := true |} logged_out eq_refl) as (_ & _ & H).
  apply (H sample_usernames
           {| entry_password := Some "wonder"%string;
              entry_name := Some "Alice"%string |} "Alice"%string);
    reflexivity.
Defined.

Lemma missing_name_still_logs_in_witness :
  exists st',
    check_login str_lower (Some (Some sample_usernames))
      {| typed_username := "BOB"; typed_password := "builder";
         submitted := true |} logged_out = (inr Missing_key, st') /\
    logged_in st' = true.
Proof.
  destruct (missing_name_still_logs_in str_lower sample_usernames
              {| entry_password := Some "builder"%string; entry_name := None |}
              {| typed_username := "BOB"; typed_password := "builder";
                 submitted := true |} logged_out)
    as (st' & E & L & _); try reflexivity.
  exists st'. split; assumption.
Defined.

Lemma estimated_profit_within_bounds_witness :
  exists results g',
    run_vectorized_simulation (G := lcg_generator)
      [2; 3] 2 [1 # 2; 1 # 4]%Q 10 42 = (Ok results, g') /\
    forall r batch,
      Dict.get results r = Some batch ->
      exists mean, np_mean batch = Fin mean /\ (0 <= mean <= inject_Z 50)%Q.
Proof.
  destruct (estimated_profit_within_bounds (G := lcg_generator)
              [2; 3] 2 [1 # 2; 1 # 4]%Q 10 42)
    as (results & g' & E & H).
  - repeat constructor; lia.
  - repeat constructor; cbv; discriminate.
  - lia.
  - lia.
  - cbv; discriminate.
  - exists results, g'. split; [exact E|].
    intros r batch Hget.
    destruct (H r batch 0 Hget) as (mean & profit & Em & B & _).
    exists mean. split; [exact Em|exact B].
Defined.

Lemma profit_range_brackets_estimate_witness :
  exists m,
    scenario_metrics_of (F := lcg_sqrt) 100 [((1 # 2)%Q, [20; 40])] (1 # 2)
    = Ok m /\
    exists estimate sd low high,
      estimated_net_profit m = Fin estimate /\
      std_payout m = Fin sd /\
      profit_minus_1_std m = Fin low /\
      profit_plus_1_std m = Fin high /\
      (0 <= sd)%Q /\
      (low <= estimate <= high)%Q.
Proof.
  exact (profit_range_brackets_estimate (F := lcg_sqrt)
           100 [((1 # 2)%Q, [20; 40])] (1 # 2) [20; 40] eq_refl).
Defined.

Lemma scenario_table_rows_witness :
  exists rep g',
    main_app (G := lcg_generator) (F := lcg_sqrt) sample_sidebar 42
      = (Ok rep, g') /\
    length (df_all_scenarios rep) = 10%nat.
Proof.
  destruct (scenario_table_rows (G := lcg_generator) (F := lcg_sqrt)
              sample_sidebar 42 sample_sidebar_accepted)
    as (rep & g' & E & L & _).
  exists rep, g'. split; assumption.
Defined.


(** A sidebar whose revenue per account exceeds the payout per success:
    every rate is profitable and the tab names 1%. *)
Example breakeven_first_rate :
  match fst (main_app (G := lcg_generator) (F := lcg_sqrt)
               {| mode := Randomized (5, 15);
                  num_traders := 3;
                  n_simulations := 2;
                  cost_per_account := 2000;
                  payout_per_successful_account := 1000;
                  additional_revenue := 1 |} 42) with
  | Ok rep => tab2 rep = Lowest_profitable (100 # 10000)
  | Raise _ => False
  end.
Proof. vm_compute. reflexivity. Qed.
